(** * Verification of the bit-level helpers of [helpers/utils.hpp]

    The development embeds the pure helpers of namespace [hex] that turn raw
    bit patterns into typed scalars:

    - [extract] and [signExtend] (bit range extraction, sign extension),
    - [isUnsigned], [isSigned], [isFloatingPoint], [getTypeSize]
      (decoding of the packed type tag),
    - the two overloads of [changeEndianess] (byte order normalisation).

    Machine integers are represented by their bit pattern, an integer of [Z]
    in [0, 2^w); every wrap-around of the C++ code is written out. *)

From Stdlib Require Import String.
From Stdlib Require Import ZArith Lia List Bool.
Import ListNotations.
Local Open Scope Z_scope.

(** ** Undefined behaviour as a partial result

    C++ leaves a shift undefined when the amount is negative or not smaller
    than the width of the shifted operand.  The shifts of the embedding
    return [None] there, and the helpers thread that through [bind]. *)

Definition bind {A B : Type} (m : option A) (f : A -> option B) : option B :=
  match m with
  | Some a => f a
  | None => None
  end.

Notation "x <- m ;; k" := (bind m (fun x => k))
  (at level 61, m at next level, right associativity).

(** ** Arithmetic on [u64] *)

(** [std::numeric_limits<u64>::max()] *)
Definition u64_max : Z := 2 ^ 64 - 1.

Definition wrap64 (x : Z) : Z := x mod 2 ^ 64.

Definition shift_ok (n : Z) : bool := (0 <=? n) && (n <? 64).

(** [x << n] on [u64]: the bits shifted out at the top are lost. *)
Definition shl64 (x n : Z) : option Z :=
  if shift_ok n then Some (wrap64 (Z.shiftl x n)) else None.

(** [x >> n] on [u64]: a logical shift, zeros enter at the top. *)
Definition shr64 (x n : Z) : option Z :=
  if shift_ok n then Some (Z.shiftr x n) else None.

(** [x - y] on [u64], modulo [2^64]. *)
Definition sub64 (x y : Z) : Z := wrap64 (x - y).

(** ** Bit extractor *)

(** [extract(u8 from, u8 to, const u64 &value)].  The operands [from] and [to]
    are promoted to [int], so [from - to] and [63 - (from - to)] are computed
    without wrap-around. *)
Definition extract (from to value : Z) : option Z :=
  m <- shr64 u64_max (63 - (from - to)) ;;
  mask <- shl64 m to ;;
  shr64 (Z.land value mask) to.

(** [signExtend(u64 value, u8 currWidth, u8 targetWidth)].  Every operation is
    on [u64]: the subtraction wraps, and the right shift is the logical one. *)
Definition signExtend (value currWidth targetWidth : Z) : option Z :=
  mask <- shl64 1 (currWidth - 1) ;;
  x <- shl64 (sub64 (Z.lxor value mask) mask) (64 - targetWidth) ;;
  shr64 x (64 - targetWidth).

(** *** Reference notions for sign extension *)

(** The signed integer denoted by the [w]-bit pattern [v]. *)
Definition signed_of (w v : Z) : Z :=
  if v <? 2 ^ (w - 1) then v else v - 2 ^ w.

(** The [w]-bit two's-complement pattern of the integer [n]. *)
Definition twos_complement (w n : Z) : Z := n mod 2 ^ w.

(** Sign extension as the specification words it: the low [currWidth] bits of
    [value], read as a signed integer, written on [targetWidth] bits. *)
Definition signExtend_spec (value currWidth targetWidth : Z) : Z :=
  twos_complement targetWidth (signed_of currWidth (value mod 2 ^ currWidth)).

(** [x >> n] on a 64-bit pattern read as a signed integer: the arithmetic
    shift, copies of bit 63 enter at the top. *)
Definition sar64 (x n : Z) : option Z :=
  if shift_ok n then Some (wrap64 (Z.shiftr (signed_of 64 x) n)) else None.

(** The computation of [signExtend] with the final shift taken as an
    arithmetic one, as the specification describes it. *)
Definition signExtend_arith (value currWidth targetWidth : Z) : option Z :=
  mask <- shl64 1 (currWidth - 1) ;;
  x <- shl64 (sub64 (Z.lxor value mask) mask) (64 - targetWidth) ;;
  sar64 x (64 - targetWidth).

(** ** Type descriptor decoder *)

(** Modelled from the spec: the type tag is "a packed unsigned integer", its
    low 4 bits the semantic class and the remaining bits the width.  The
    enumeration [lang::Token::TypeToken::Type] itself is declared in
    [lang/token.hpp]; a tag is represented here by its numeric value. *)
Definition TypeTag : Set := Z.

(** [static_cast<u32>(type)]: the value modulo [2^32]. *)
Definition to_u32 (type : TypeTag) : Z := type mod 2 ^ 32.

Definition isUnsigned (type : TypeTag) : bool :=
  Z.land (to_u32 type) 0x0F =? 0x00.

Definition isSigned (type : TypeTag) : bool :=
  Z.land (to_u32 type) 0x0F =? 0x01.

Definition isFloatingPoint (type : TypeTag) : bool :=
  Z.land (to_u32 type) 0x0F =? 0x02.

Definition getTypeSize (type : TypeTag) : Z :=
  Z.shiftr (to_u32 type) 4.

(** How many of the three class predicates hold of a tag. *)
Definition class_count (t : TypeTag) : nat :=
  Nat.b2n (isUnsigned t) + Nat.b2n (isSigned t) + Nat.b2n (isFloatingPoint t).

(** ** Endianness normaliser *)

(** [std::endian]: the two byte orders; which of them is [std::endian::native]
    depends on the platform and is a parameter of the development. *)
Inductive endian : Set :=
  | little
  | big.

Definition endian_eqb (a b : endian) : bool :=
  match a, b with
  | little, little => true
  | big, big => true
  | _, _ => false
  end.

(** Modelled from the spec: "fixed-width integer types T of size 1, 2, 4, or 8
    bytes".  The aliases [u8] .. [s64] are declared in [hex.hpp]; these are the
    types the template parameter [T] of [changeEndianess] ranges over. *)
Inductive IntType : Set :=
  | U8 | U16 | U32 | U64
  | S8 | S16 | S32 | S64.

Definition sizeof (T : IntType) : Z :=
  match T with
  | U8 | S8 => 1
  | U16 | S16 => 2
  | U32 | S32 => 4
  | U64 | S64 => 8
  end.

Definition is_signed_type (T : IntType) : bool :=
  match T with
  | S8 | S16 | S32 | S64 => true
  | _ => false
  end.

Definition bits (T : IntType) : Z := 8 * sizeof T.

(** A value of type [T] is represented by its bit pattern. *)
Definition in_range (T : IntType) (v : Z) : Prop := 0 <= v < 2 ^ bits T.

(** Implicit conversion of a [T] value to the unsigned type of [n] bits
    (the argument of a byte-swap builtin): the value modulo [2^n]. *)
Definition to_unsigned (T : IntType) (n : Z) (v : Z) : Z :=
  (if is_signed_type T then signed_of (bits T) v else v) mod 2 ^ n.

(** Implicit conversion of an unsigned value back to [T] (the [return]). *)
Definition of_unsigned (T : IntType) (u : Z) : Z := u mod 2 ^ bits T.

Definition is_byte (b : Z) : Prop := 0 <= b < 256.

(** The bytes of [v], least significant first. *)
Fixpoint to_bytes (n : nat) (v : Z) : list Z :=
  match n with
  | O => []
  | S k => v mod 256 :: to_bytes k (v / 256)
  end.

Fixpoint of_bytes (bs : list Z) : Z :=
  match bs with
  | [] => 0
  | b :: t => b + 256 * of_bytes t
  end.

(** The compiler builtins [__builtin_bswap16/32/64]: the bytes of the operand
    in reverse order. *)
Definition bswap (n : nat) (v : Z) : Z := of_bytes (rev (to_bytes n v)).

Definition bswap16 : Z -> Z := bswap 2.
Definition bswap32 : Z -> Z := bswap 4.
Definition bswap64 : Z -> Z := bswap 8.

(** [std::invalid_argument] is the only exception the helpers throw. *)
Inductive exception : Set :=
  | invalid_argument (what : string).

Inductive result (A : Type) : Type :=
  | Ok (a : A)
  | Throw (e : exception).

Arguments Ok {A} a.
Arguments Throw {A} e.

Definition succeeds {A : Type} (r : result A) : Prop := exists a, r = Ok a.

Section Endianness.

(** [std::endian::native] *)
Variable native : endian.

(** [template<typename T> T changeEndianess(T value, std::endian endian)].
    The last branch is the [static_assert]: no [T] of [IntType] reaches it. *)
Definition changeEndianess (T : IntType) (value : Z) (e : endian) : Z :=
  if endian_eqb e native then value
  else if sizeof T =? 1 then value
  else if sizeof T =? 2 then of_unsigned T (bswap16 (to_unsigned T 16 value))
  else if sizeof T =? 4 then of_unsigned T (bswap32 (to_unsigned T 32 value))
  else if sizeof T =? 8 then of_unsigned T (bswap64 (to_unsigned T 64 value))
  else value.

(** [template<typename T> T changeEndianess(T value, size_t size,
    std::endian endian)], the overload with the byte count given at run
    time. *)
Definition changeEndianess_sized (T : IntType) (value size : Z) (e : endian)
  : result Z :=
  if endian_eqb e native then Ok value
  else if size =? 1 then Ok value
  else if size =? 2 then Ok (of_unsigned T (bswap16 (to_unsigned T 16 value)))
  else if size =? 4 then Ok (of_unsigned T (bswap32 (to_unsigned T 32 value)))
  else if size =? 8 then Ok (of_unsigned T (bswap64 (to_unsigned T 64 value)))
  else Throw (invalid_argument "Invalid value size!").

End Endianness.

(** ** Bit width and power-of-two ceiling *)

(** [std::countl_zero] on an unsigned integer of [n] bits: the number of zero
    bits above the highest set bit, and [n] for the operand 0. *)
Fixpoint countl_zero (n : nat) (x : Z) : Z :=
  match n with
  | O => 0
  | S k => if Z.testbit x (Z.of_nat k) then 0 else 1 + countl_zero k x
  end.

(** [std::numeric_limits<T>::digits]: the value bits of [T]. *)
Definition digits (T : IntType) : Z :=
  if is_signed_type T then bits T - 1 else bits T.

(** [template<class T> T bit_width(T x)].  [std::countl_zero] accepts the
    unsigned types only, so these are the [T] the template is used at; the
    difference is an [int], converted to [T] by the [return]. *)
Definition bit_width (T : IntType) (x : Z) : Z :=
  of_unsigned T (digits T - countl_zero (Z.to_nat (bits T)) x).

(** The width of the type a [T] operand of a shift is promoted to: [int] or
    [unsigned int], of 32 bits, for the types of at most 4 bytes, and [u64]
    itself. *)
Definition promoted_bits (T : IntType) : Z :=
  if sizeof T <=? 4 then 32 else 64.

(** [T(x) << n] returned as a [T]: undefined when [n] is not smaller than the
    width of the promoted left operand, and otherwise [x * 2^n] reduced to the
    bits of [T]. *)
Definition shl_T (T : IntType) (x n : Z) : option Z :=
  if (0 <=? n) && (n <? promoted_bits T)
  then Some (of_unsigned T (Z.shiftl x n))
  else None.

(** [template<typename T> T bit_ceil(T x)] *)
Definition bit_ceil (T : IntType) (x : Z) : option Z :=
  if x <=? 1 then Some (of_unsigned T 1)
  else shl_T T 1 (bit_width T (of_unsigned T (x - 1))).

(** ** Sanity checks on concrete inputs *)

Example extract_low_byte : extract 7 0 0x1234ABFF = Some 0xFF.
Proof. reflexivity. Qed.

Example extract_then_signExtend :
  (n <- extract 3 0 0xA ;; signExtend n 4 8) = Some 0xFA.
Proof. reflexivity. Qed.

Example bswap16_ex : bswap16 0x1234 = 0x3412.
Proof. reflexivity. Qed.

Example bswap32_ex : bswap32 0x12345678 = 0x78563412.
Proof. reflexivity. Qed.

Example bswap64_ex : bswap64 0x0102030405060708 = 0x0807060504030201.
Proof. reflexivity. Qed.

Example signExtend_zero_width : signExtend 1 0 8 = None.
Proof. reflexivity. Qed.

Example bit_width_ex : bit_width U32 0x1234 = 13.
Proof. reflexivity. Qed.

Example bit_ceil_ex : bit_ceil U32 0x1234 = Some 0x2000.
Proof. reflexivity. Qed.

Example bit_ceil_u8_wraps : bit_ceil U8 200 = Some 0.
Proof. reflexivity. Qed.

Example bit_ceil_u64_undefined : bit_ceil U64 (2 ^ 63 + 1) = None.
Proof. reflexivity. Qed.

(** ** Powers of two and machine shifts *)

Lemma pow2_pos (n : Z) : 0 <= n -> 0 < 2 ^ n.
Proof. intros Hn. apply Z.pow_pos_nonneg; lia. Qed.

Lemma pow2_mono (a b : Z) : 0 <= a <= b -> 2 ^ a <= 2 ^ b.
Proof. intros H. apply Z.pow_le_mono_r; lia. Qed.

Lemma pow2_split (a b : Z) : 0 <= a <= b -> 2 ^ b = 2 ^ (b - a) * 2 ^ a.
Proof.
  intros H. rewrite <- Z.pow_add_r by lia. f_equal. lia.
Qed.

Lemma mod_mod_pow2 (x a b : Z) :
  0 <= a <= b -> (x mod 2 ^ b) mod 2 ^ a = x mod 2 ^ a.
Proof.
  intros H. apply Z.mod_mod_divide.
  exists (2 ^ (b - a)). now apply pow2_split.
Qed.

Lemma shift_ok_true (n : Z) : 0 <= n < 64 -> shift_ok n = true.
Proof.
  intros H. unfold shift_ok.
  apply andb_true_iff. split; [apply Z.leb_le | apply Z.ltb_lt]; lia.
Qed.

Lemma shl64_in_range (x n : Z) :
  0 <= n < 64 -> shl64 x n = Some ((x * 2 ^ n) mod 2 ^ 64).
Proof.
  intros H. unfold shl64, wrap64.
  rewrite shift_ok_true by assumption.
  now rewrite Z.shiftl_mul_pow2 by lia.
Qed.

Lemma shr64_in_range (x n : Z) :
  0 <= n < 64 -> shr64 x n = Some (x / 2 ^ n).
Proof.
  intros H. unfold shr64.
  rewrite shift_ok_true by assumption.
  now rewrite Z.shiftr_div_pow2 by lia.
Qed.

Lemma u64_max_ones : u64_max = Z.ones 64.
Proof. reflexivity. Qed.

(** A left shift by [s] followed by the logical right shift by [s] keeps the
    low [64 - s] bits and clears the others. *)
Lemma shl_shr_truncates (x s : Z) :
  0 <= s < 64 ->
  ((x * 2 ^ s) mod 2 ^ 64) / 2 ^ s = x mod 2 ^ (64 - s).
Proof.
  intros H.
  assert (Hs : 0 < 2 ^ s) by (apply pow2_pos; lia).
  assert (Ht : 0 < 2 ^ (64 - s)) by (apply pow2_pos; lia).
  rewrite (pow2_split s 64) by lia.
  rewrite Z.mul_mod_distr_r by lia.
  now rewrite Z.div_mul by lia.
Qed.

(** ** The bit extractor *)

Section Extract.

Variables from to : Z.
Hypothesis Hto : 0 <= to <= from.
Hypothesis Hfrom : from <= 63.

(** The mask of [extract]: ones at the positions [to .. from]. *)
Lemma extract_mask :
  Z.shiftl (Z.shiftr u64_max (63 - (from - to))) to
  = Z.shiftl (Z.ones (from - to + 1)) to.
Proof.
  rewrite u64_max_ones, Z.shiftr_div_pow2 by lia.
  rewrite Z.ones_div_pow2 by lia.
  do 2 f_equal. lia.
Qed.

Lemma extract_mask_fits :
  0 <= Z.shiftl (Z.ones (from - to + 1)) to < 2 ^ 64.
Proof.
  rewrite Z.shiftl_mul_pow2, Z.ones_equiv by lia.
  assert (H1 : 0 < 2 ^ (from - to + 1)) by (apply pow2_pos; lia).
  assert (H2 : 0 < 2 ^ to) by (apply pow2_pos; lia).
  assert (H3 : 2 ^ (from - to + 1) * 2 ^ to <= 2 ^ 64).
  { rewrite <- Z.pow_add_r by lia. apply pow2_mono. lia. }
  nia.
Qed.

Lemma extract_masked_shift (value : Z) :
  Z.shiftr (Z.land value (Z.shiftl (Z.ones (from - to + 1)) to)) to
  = (value / 2 ^ to) mod 2 ^ (from - to + 1).
Proof.
  rewrite Z.shiftr_land.
  rewrite Z.shiftr_shiftl_l by lia.
  rewrite Z.sub_diag, Z.shiftl_0_r.
  rewrite Z.land_ones by lia.
  now rewrite Z.shiftr_div_pow2 by lia.
Qed.

Lemma extract_value (value : Z) :
  extract from to value
  = Some (Z.shiftr
            (Z.land value
               (Z.shiftl (Z.shiftr u64_max (63 - (from - to))) to)) to).
Proof.
  unfold extract, shr64 at 1.
  rewrite shift_ok_true by lia. cbn [bind].
  unfold shl64. rewrite shift_ok_true by lia. cbn [bind].
  unfold shr64. rewrite shift_ok_true by lia.
  unfold wrap64.
  rewrite extract_mask.
  now rewrite (Z.mod_small _ _ extract_mask_fits).
Qed.

End Extract.


(** C2. For every 64-bit [value] and every range with
    [0 <= to <= from <= 63], [extract from to value] is defined and equals
    [(value & mask) >> to] with
    [mask = (ALL_ONES >> (63 - (from - to))) << to]; that result is the field
    made of the bits [to .. from] of [value], right-aligned at bit 0: bit [i]
    of the result is bit [to + i] of [value] for [i <= from - to], and zero
    above. *)
Theorem extract_bit_range (from to value : Z) :
  0 <= value < 2 ^ 64 ->
  0 <= to <= from ->
  from <= 63 ->
  let mask := Z.shiftl (Z.shiftr u64_max (63 - (from - to))) to in
  extract from to value = Some (Z.shiftr (Z.land value mask) to)
  /\ Z.shiftr (Z.land value mask) to = (value / 2 ^ to) mod 2 ^ (from - to + 1)
  /\ forall i, 0 <= i ->
       Z.testbit (Z.shiftr (Z.land value mask) to) i
       = (i <=? from - to) && Z.testbit value (to + i).
Proof.
  intros Hv Hto Hfrom mask. subst mask.
  split; [now apply extract_value |].
  rewrite extract_mask by assumption.
  split; [now apply extract_masked_shift |].
  intros i Hi.
  rewrite Z.shiftr_spec, Z.land_spec, Z.shiftl_spec by lia.
  rewrite Z.testbit_ones by lia.
  replace (i + to - to) with i by lia.
  replace (i + to) with (to + i) by lia.
  destruct (Z.leb_spec i (from - to)) as [Hle | Hgt].
  - replace (0 <=? i) with true by (symmetry; apply Z.leb_le; lia).
    replace (i <? from - to + 1) with true by (symmetry; apply Z.ltb_lt; lia).
    cbn. now rewrite andb_true_r.
  - replace (i <? from - to + 1) with false by (symmetry; apply Z.ltb_ge; lia).
    now rewrite andb_false_r, andb_false_r.
Qed.

Lemma extract_bit_range_witness :
  extract 11 4 0x1234ABFF = Some 0xBF
  /\ 0xBF = (0x1234ABFF / 2 ^ 4) mod 2 ^ (11 - 4 + 1).
Proof.
  destruct (extract_bit_range 11 4 0x1234ABFF) as (H1 & H2 & _);
    [ lia | lia | lia | ].
  split; [exact H1 | exact H2].
Defined.

(** ** Sign extension *)

(** Flipping bit [k] adds or removes [2^k], according to the bit. *)
Lemma lxor_pow2 (v k : Z) :
  0 <= k ->
  Z.lxor v (2 ^ k) = if Z.testbit v k then v - 2 ^ k else v + 2 ^ k.
Proof.
  intros Hk.
  assert (Hclear : forall a, Z.testbit a k = false -> Z.land a (2 ^ k) = 0).
  { intros a Ha. apply Z.bits_inj'. intros n Hn.
    rewrite Z.land_spec, Z.pow2_bits_eqb, Z.bits_0 by assumption.
    destruct (Z.eqb_spec k n) as [-> | _].
    - now rewrite Ha.
    - apply andb_false_r. }
  destruct (Z.testbit v k) eqn:Hbit.
  - assert (Hflip : Z.testbit (Z.lxor v (2 ^ k)) k = false).
    { rewrite Z.lxor_spec, Z.pow2_bits_eqb, Z.eqb_refl, Hbit by assumption.
      reflexivity. }
    pose proof (Z.add_nocarry_lxor _ _ (Hclear _ Hflip)) as Hadd.
    rewrite Z.lxor_assoc, Z.lxor_nilpotent, Z.lxor_0_r in Hadd.
    lia.
  - symmetry. apply Z.add_nocarry_lxor. now apply Hclear.
Qed.

(** The top bit of a [(k+1)]-bit pattern tells on which side of [2^k] it is. *)
Lemma testbit_top (k l : Z) :
  0 <= k -> 0 <= l < 2 ^ (k + 1) -> Z.testbit l k = negb (l <? 2 ^ k).
Proof.
  intros Hk Hl.
  assert (Hp : 0 < 2 ^ k) by now apply pow2_pos.
  rewrite Z.pow_add_r, Z.pow_1_r in Hl by lia.
  rewrite Z.testbit_eqb by assumption.
  destruct (Z.ltb_spec l (2 ^ k)) as [Hlt | Hge].
  - now rewrite Z.div_small by lia.
  - replace (l / 2 ^ k) with 1; [reflexivity |].
    apply (Z.div_unique l (2 ^ k) 1 (l - 2 ^ k)); lia.
Qed.

(** On every [u64] and for widths in [1 .. 64] no shift of [signExtend] is out
    of range, and the two final shifts keep the low [targetWidth] bits of
    [(value ^ mask) - mask]: the bits above them are zero. *)
Lemma signExtend_truncates (value cw tw : Z) :
  1 <= cw <= 64 ->
  1 <= tw <= 64 ->
  signExtend value cw tw
  = Some ((Z.lxor value (2 ^ (cw - 1)) - 2 ^ (cw - 1)) mod 2 ^ tw).
Proof.
  intros Hcw Htw. unfold signExtend.
  rewrite shl64_in_range by lia. cbn [bind].
  rewrite Z.mul_1_l.
  assert (Hm : 0 <= 2 ^ (cw - 1) < 2 ^ 64).
  { split; [apply Z.lt_le_incl, pow2_pos; lia |].
    apply Z.pow_lt_mono_r; lia. }
  rewrite (Z.mod_small _ _ Hm).
  rewrite shl64_in_range by lia. cbn [bind].
  rewrite shr64_in_range by lia.
  rewrite shl_shr_truncates by lia.
  unfold sub64, wrap64.
  replace (64 - (64 - tw)) with tw by lia.
  now rewrite mod_mod_pow2 by lia.
Qed.

(** [(value ^ mask) - mask] is the signed reading of the low [cw] bits of
    [value], plus whatever [value] holds above them. *)
Lemma flip_rebias (value cw : Z) :
  1 <= cw ->
  Z.lxor value (2 ^ (cw - 1)) - 2 ^ (cw - 1)
  = signed_of cw (value mod 2 ^ cw) + 2 ^ cw * (value / 2 ^ cw).
Proof.
  intros Hcw.
  assert (Hp : 0 < 2 ^ cw) by (apply pow2_pos; lia).
  pose proof (Z.mod_pos_bound value (2 ^ cw) Hp) as Hl.
  pose proof (Z.div_mod value (2 ^ cw) ltac:(lia)) as Hdm.
  rewrite lxor_pow2 by lia.
  rewrite <- (Z.mod_pow2_bits_low value cw (cw - 1)) by lia.
  rewrite testbit_top by (replace (cw - 1 + 1) with cw by lia; lia).
  unfold signed_of.
  assert (H2 : 2 ^ cw = 2 * 2 ^ (cw - 1)).
  { rewrite <- (Z.pow_succ_r 2 (cw - 1)) by lia. f_equal. lia. }
  destruct (Z.ltb_spec (value mod 2 ^ cw) (2 ^ (cw - 1))); cbn [negb]; lia.
Qed.

Lemma signed_of_mod (w l : Z) : signed_of w l mod 2 ^ w = l mod 2 ^ w.
Proof.
  unfold signed_of. destruct (l <? 2 ^ (w - 1)); [reflexivity |].
  replace (l - 2 ^ w) with (l + (-1) * 2 ^ w) by lia.
  destruct (Z.eq_dec (2 ^ w) 0) as [-> | Hnz].
  - now rewrite Z.mul_0_r, Z.add_0_r.
  - now apply Z.mod_add.
Qed.

(** When the low [tw] bits of [value] fit on [cw] bits, what [value] holds
    above bit [cw] is a multiple of [2^tw]. *)
Lemma high_part_vanishes (value cw tw : Z) :
  1 <= cw -> 1 <= tw ->
  value mod 2 ^ tw < 2 ^ cw ->
  exists q, 2 ^ cw * (value / 2 ^ cw) = q * 2 ^ tw.
Proof.
  intros Hcw Htw Hfit.
  assert (Hpc : 0 < 2 ^ cw) by (apply pow2_pos; lia).
  assert (Hpt : 0 < 2 ^ tw) by (apply pow2_pos; lia).
  destruct (Z.le_gt_cases tw cw) as [Hle | Hgt].
  - exists (2 ^ (cw - tw) * (value / 2 ^ cw)).
    rewrite (pow2_split tw cw) by lia. lia.
  - exists (value / 2 ^ tw).
    pose proof (Z.mod_pos_bound value (2 ^ tw) Hpt) as Hb.
    assert (Hlow : value mod 2 ^ tw = value mod 2 ^ cw).
    { rewrite <- (mod_mod_pow2 value cw tw) by lia.
      symmetry. apply Z.mod_small. lia. }
    pose proof (Z.div_mod value (2 ^ cw) ltac:(lia)) as H1.
    pose proof (Z.div_mod value (2 ^ tw) ltac:(lia)) as H2.
    lia.
Qed.

Lemma pow2_double (w : Z) : 1 <= w -> 2 ^ w = 2 * 2 ^ (w - 1).
Proof.
  intros Hw. rewrite <- (Z.pow_succ_r 2 (w - 1)) by lia. f_equal. lia.
Qed.

Lemma signed_of_range (w v : Z) :
  1 <= w -> 0 <= v < 2 ^ w ->
  - 2 ^ (w - 1) <= signed_of w v < 2 ^ (w - 1).
Proof.
  intros Hw Hv. unfold signed_of.
  assert (H2 : 2 ^ w = 2 * 2 ^ (w - 1)).
  { rewrite <- (Z.pow_succ_r 2 (w - 1)) by lia. f_equal. lia. }
  destruct (Z.ltb_spec v (2 ^ (w - 1))); lia.
Qed.

(** Reading back the [w]-bit pattern of an integer that fits on [w] bits. *)
Lemma signed_of_twos_complement (w s : Z) :
  1 <= w -> - 2 ^ (w - 1) <= s < 2 ^ (w - 1) ->
  signed_of w (twos_complement w s) = s.
Proof.
  intros Hw Hs. unfold signed_of, twos_complement.
  assert (Hp : 0 < 2 ^ (w - 1)) by (apply pow2_pos; lia).
  assert (H2 : 2 ^ w = 2 * 2 ^ (w - 1)).
  { rewrite <- (Z.pow_succ_r 2 (w - 1)) by lia. f_equal. lia. }
  destruct (Z.le_gt_cases 0 s) as [Hpos | Hneg].
  - rewrite Z.mod_small by lia.
    destruct (Z.ltb_spec s (2 ^ (w - 1))); lia.
  - rewrite <- (Z.mod_add s 1 (2 ^ w)) by lia.
    rewrite Z.mod_small by lia.
    destruct (Z.ltb_spec (s + 1 * 2 ^ w) (2 ^ (w - 1))); lia.
Qed.

(** [signExtend] on a value that fits on [cw] bits. *)
Lemma signExtend_of_small (value cw tw : Z) :
  1 <= cw <= 64 -> 1 <= tw <= 64 -> 0 <= value < 2 ^ cw ->
  signExtend value cw tw = Some (twos_complement tw (signed_of cw value)).
Proof.
  intros Hcw Htw Hv.
  rewrite signExtend_truncates, flip_rebias by lia.
  rewrite (Z.div_small value (2 ^ cw)), (Z.mod_small value (2 ^ cw)) by lia.
  now rewrite Z.mul_0_r, Z.add_0_r.
Qed.

(** Narrowing: below [cw] the flip and the rebias cancel modulo [2^tw]. *)
Lemma signExtend_truncation (value cw tw : Z) :
  1 <= tw <= cw -> cw <= 64 ->
  signExtend value cw tw = Some (value mod 2 ^ tw).
Proof.
  intros Htw Hcw.
  rewrite signExtend_truncates by lia.
  rewrite lxor_pow2 by lia.
  assert (Hp : 0 < 2 ^ tw) by (apply pow2_pos; lia).
  assert (H2 : 2 ^ (cw - 1) + 2 ^ (cw - 1) = 2 ^ (cw - tw) * 2 ^ tw).
  { rewrite <- pow2_split by lia.
    rewrite (pow2_double cw) by lia. lia. }
  f_equal.
  destruct (Z.testbit value (cw - 1)).
  - replace (value - 2 ^ (cw - 1) - 2 ^ (cw - 1))
      with (value + (- 2 ^ (cw - tw)) * 2 ^ tw) by lia.
    apply Z.mod_add. lia.
  - f_equal. lia.
Qed.

(** Widening: the result reads back, on [tw] bits, as the signed integer the
    [cw]-bit pattern [v] denotes. *)
Lemma signExtend_reads_back (v cw tw : Z) :
  1 <= cw <= tw -> tw <= 64 -> 0 <= v < 2 ^ cw ->
  0 <= twos_complement tw (signed_of cw v) < 2 ^ tw
  /\ signed_of tw (twos_complement tw (signed_of cw v)) = signed_of cw v.
Proof.
  intros Hcw Htw Hv. split.
  - apply Z.mod_pos_bound, pow2_pos. lia.
  - apply signed_of_twos_complement; [lia |].
    pose proof (signed_of_range cw v ltac:(lia) Hv).
    pose proof (pow2_mono (cw - 1) (tw - 1) ltac:(lia)).
    lia.
Qed.

(** C1, as amended.  For every [u64] [value] and all widths with
    [1 <= currentWidth <= 64] and [1 <= targetWidth <= 64],
    [signExtend value currentWidth targetWidth] is defined and is
    [(value XOR mask) - mask], with [mask = 1 << (currentWidth - 1)], reduced
    to its low [targetWidth] bits: the final right shift is the logical one of
    [u64], so the bits of the result above [targetWidth] are zero.
    - Widening, [currentWidth <= targetWidth]: when the bits
      [currentWidth .. targetWidth - 1] of [value] are zero (as they are for
      [value < 2^currentWidth]), the result fits on [targetWidth] bits and,
      read as a [targetWidth]-bit two's-complement integer, is the signed
      integer denoted by the low [currentWidth] bits of [value].
    - Narrowing, [targetWidth <= currentWidth]: the result is [value]
      truncated to its low [targetWidth] bits, [value mod 2^targetWidth]. *)
Theorem signExtend_sign_extends (value cw tw : Z) :
  0 <= value < 2 ^ 64 ->
  1 <= cw <= 64 ->
  1 <= tw <= 64 ->
  signExtend value cw tw
  = Some ((Z.lxor value (2 ^ (cw - 1)) - 2 ^ (cw - 1)) mod 2 ^ tw)
  /\ (cw <= tw ->
      value mod 2 ^ tw < 2 ^ cw ->
      exists r,
        signExtend value cw tw = Some r
        /\ 0 <= r < 2 ^ tw
        /\ signed_of tw r = signed_of cw (value mod 2 ^ cw))
  /\ (tw <= cw -> signExtend value cw tw = Some (value mod 2 ^ tw)).
Proof.
  intros _ Hcw Htw.
  assert (Hpt : 0 < 2 ^ tw) by (apply pow2_pos; lia).
  assert (Hpc : 0 < 2 ^ cw) by (apply pow2_pos; lia).
  split; [apply signExtend_truncates; lia |].
  split.
  - intros Hle Hfit.
    exists (twos_complement tw (signed_of cw (value mod 2 ^ cw))).
    destruct (signExtend_reads_back (value mod 2 ^ cw) cw tw) as [Hr Hs];
      [lia | lia | apply Z.mod_pos_bound; lia |].
    split; [| split; [exact Hr | exact Hs]].
    rewrite signExtend_truncates, flip_rebias by lia.
    destruct (high_part_vanishes value cw tw) as [q ->];
      [lia | lia | exact Hfit |].
    unfold twos_complement. now rewrite Z.mod_add by lia.
  - intros Hle. apply signExtend_truncation; lia.
Qed.

Lemma signExtend_sign_extends_witness :
  signExtend 0xA 4 8 = Some 0xFA
  /\ (exists r,
        signExtend 0xA 4 8 = Some r
        /\ 0 <= r < 2 ^ 8
        /\ signed_of 8 r = signed_of 4 (0xA mod 2 ^ 4))
  /\ signExtend 0x80 8 4 = Some (0x80 mod 2 ^ 4).
Proof.
  destruct (signExtend_sign_extends 0xA 4 8) as (H1 & H2 & _);
    [lia | lia | lia |].
  destruct (signExtend_sign_extends 0x80 8 4) as (_ & _ & H3);
    [lia | lia | lia |].
  split; [exact H1 |].
  split; [apply H2; [lia | reflexivity] | apply H3; lia].
Defined.

(** C1 as stated fails on the code, in three ways.  With bits set above
    [currentWidth] the result is not the pattern of the signed reading of the
    low bits: for [value = 0x1F], widths 4 and 8, the low nibble denotes -1,
    whose 8-bit pattern is 0xFF, and the code returns 0x0F, which reads as 15.
    The final shift is not arithmetic: for [value = 0xA], widths 4 and 8, the
    code returns 0xFA, with zeros above bit 8, where an arithmetic shift would
    give 0xFFFFFFFFFFFFFFFA.  And narrowing does not keep the signed integer:
    for [value = 0x80], widths 8 and 4, the low 8 bits denote -128 and the
    code returns 0, which reads as 0. *)
Lemma signExtend_counterexample :
  signExtend 0x1F 4 8 = Some 0x0F
  /\ signExtend_spec 0x1F 4 8 = 0xFF
  /\ signExtend 0x1F 4 8 <> Some (signExtend_spec 0x1F 4 8)
  /\ signed_of 8 0x0F <> signed_of 4 (0x1F mod 2 ^ 4)
  /\ signExtend 0xA 4 8 = Some 0xFA
  /\ signExtend_arith 0xA 4 8 = Some 0xFFFFFFFFFFFFFFFA
  /\ signExtend 0xA 4 8 <> signExtend_arith 0xA 4 8
  /\ signExtend 0x80 8 4 = Some 0
  /\ signed_of 8 (0x80 mod 2 ^ 8) = -128
  /\ signed_of 4 0 <> signed_of 8 (0x80 mod 2 ^ 8).
Proof.
  repeat split; try reflexivity; vm_compute; discriminate.
Qed.

(** C8. For every width [w] with [1 <= w <= 64] and every [value] that is
    representable on [w] bits ([value < 2^w]), [signExtend value w w] is
    defined and returns [value] unchanged. *)
Theorem signExtend_same_width (value w : Z) :
  1 <= w <= 64 ->
  0 <= value < 2 ^ w ->
  signExtend value w w = Some value.
Proof.
  intros Hw Hv.
  rewrite signExtend_truncates by lia.
  rewrite flip_rebias by lia.
  rewrite (Z.div_small value (2 ^ w)) by lia.
  rewrite Z.mul_0_r, Z.add_0_r, signed_of_mod.
  rewrite Z.mod_mod by lia.
  now rewrite Z.mod_small by lia.
Qed.

Lemma signExtend_same_width_witness :
  signExtend 0xFFFFFFFFFFFFFFFF 64 64 = Some 0xFFFFFFFFFFFFFFFF
  /\ signExtend 0xA 4 4 = Some 0xA.
Proof.
  split.
  - apply (signExtend_same_width 0xFFFFFFFFFFFFFFFF 64); lia.
  - apply (signExtend_same_width 0xA 4); lia.
Defined.

(** ** The type descriptor decoder *)

(** The class bits the three predicates test are the low nibble of the tag. *)
Lemma low_nibble (t : Z) : Z.land (to_u32 t) 0x0F = t mod 16.
Proof.
  unfold to_u32. change 0x0F with (Z.ones 4).
  rewrite Z.land_ones by lia.
  now apply (mod_mod_pow2 t 4 32).
Qed.

(** C5. For every type tag [t] at most one of [isUnsigned t], [isSigned t],
    [isFloatingPoint t] is true.  Each holds exactly for its own low nibble
    (0x0, 0x1, 0x2 respectively), so exactly one holds when the low nibble is
    one of these and none holds for any other low nibble. *)
Theorem type_class_at_most_one (t : Z) :
  (isUnsigned t = true <-> t mod 16 = 0x0)
  /\ (isSigned t = true <-> t mod 16 = 0x1)
  /\ (isFloatingPoint t = true <-> t mod 16 = 0x2)
  /\ (class_count t <= 1)%nat
  /\ (class_count t = 1%nat <-> t mod 16 = 0x0 \/ t mod 16 = 0x1 \/ t mod 16 = 0x2)
  /\ (class_count t = 0%nat <-> t mod 16 <> 0x0 /\ t mod 16 <> 0x1 /\ t mod 16 <> 0x2).
Proof.
  unfold class_count, isUnsigned, isSigned, isFloatingPoint.
  rewrite low_nibble.
  destruct (Z.eqb_spec (t mod 16) 0x00) as [H0 | H0];
    destruct (Z.eqb_spec (t mod 16) 0x01) as [H1 | H1];
    destruct (Z.eqb_spec (t mod 16) 0x02) as [H2 | H2];
    cbn [Nat.b2n Nat.add]; try lia;
    repeat split; intros; try lia; try discriminate; try tauto.
Qed.

(** C6. For every type tag [t] (an unsigned 32-bit value), [getTypeSize t] is
    [t >> 4], that is [t / 16]; the function is total, and the tag 0 is
    mapped to 0. *)
Theorem getTypeSize_is_shift (t : Z) :
  0 <= t < 2 ^ 32 ->
  getTypeSize t = Z.shiftr t 4
  /\ getTypeSize t = t / 16
  /\ getTypeSize 0 = 0.
Proof.
  intros Ht. unfold getTypeSize, to_u32.
  rewrite (Z.mod_small t) by lia.
  repeat split.
  now rewrite Z.shiftr_div_pow2 by lia.
Qed.

Lemma getTypeSize_is_shift_witness :
  getTypeSize 0x42 = Z.shiftr 0x42 4
  /\ getTypeSize 0x42 = 0x42 / 16
  /\ getTypeSize 0 = 0.
Proof.
  apply (getTypeSize_is_shift 0x42). lia.
Defined.

(** ** Byte lists and the byte-swap builtins *)

Lemma length_to_bytes (n : nat) (v : Z) : length (to_bytes n v) = n.
Proof.
  revert v. induction n as [| k IH]; intros v; cbn [to_bytes length].
  - reflexivity.
  - now rewrite IH.
Qed.

Lemma to_bytes_are_bytes (n : nat) (v : Z) : Forall is_byte (to_bytes n v).
Proof.
  revert v. induction n as [| k IH]; intros v; cbn [to_bytes].
  - constructor.
  - constructor; [| apply IH].
    unfold is_byte. apply Z.mod_pos_bound. lia.
Qed.

Lemma of_bytes_to_bytes (n : nat) (v : Z) :
  of_bytes (to_bytes n v) = v mod 256 ^ Z.of_nat n.
Proof.
  revert v. induction n as [| k IH]; intros v; cbn [to_bytes of_bytes].
  - now rewrite Z.pow_0_r, Z.mod_1_r.
  - rewrite IH, Nat2Z.inj_succ, Z.pow_succ_r by lia.
    rewrite Z.rem_mul_r; [reflexivity | lia |].
    apply Z.pow_pos_nonneg; lia.
Qed.

Lemma to_bytes_of_bytes (bs : list Z) :
  Forall is_byte bs -> to_bytes (length bs) (of_bytes bs) = bs.
Proof.
  induction 1 as [| b t Hb _ IH]; cbn [length to_bytes of_bytes].
  - reflexivity.
  - unfold is_byte in Hb.
    rewrite (Z.mul_comm 256), Z.mod_add, Z.div_add by lia.
    rewrite Z.mod_small, Z.div_small by lia.
    now rewrite Z.add_0_l, IH.
Qed.

Lemma of_bytes_bound (bs : list Z) :
  Forall is_byte bs -> 0 <= of_bytes bs < 256 ^ Z.of_nat (length bs).
Proof.
  induction 1 as [| b t Hb _ IH]; cbn [length of_bytes].
  - rewrite Z.pow_0_r. lia.
  - unfold is_byte in Hb.
    rewrite Nat2Z.inj_succ, Z.pow_succ_r by lia. lia.
Qed.

Lemma rev_bytes_are_bytes (n : nat) (v : Z) :
  Forall is_byte (rev (to_bytes n v)) /\ length (rev (to_bytes n v)) = n.
Proof.
  split.
  - apply Forall_rev, to_bytes_are_bytes.
  - now rewrite length_rev, length_to_bytes.
Qed.

Lemma bswap_bound (n : nat) (v : Z) : 0 <= bswap n v < 256 ^ Z.of_nat n.
Proof.
  destruct (rev_bytes_are_bytes n v) as [Hb Hl].
  unfold bswap.
  pose proof (of_bytes_bound _ Hb) as H. now rewrite Hl in H.
Qed.

(** Swapping twice gives back the [n] low bytes of the operand. *)
Lemma bswap_bswap (n : nat) (v : Z) :
  bswap n (bswap n v) = v mod 256 ^ Z.of_nat n.
Proof.
  destruct (rev_bytes_are_bytes n v) as [Hb Hl].
  unfold bswap.
  pose proof (to_bytes_of_bytes _ Hb) as H. rewrite Hl in H.
  now rewrite H, rev_involutive, of_bytes_to_bytes.
Qed.

Lemma pow256 (n : nat) : 256 ^ Z.of_nat n = 2 ^ (8 * Z.of_nat n).
Proof.
  rewrite Z.pow_mul_r by lia. reflexivity.
Qed.

(** ** Integer conversions around the builtins *)

Lemma endian_eqb_eq (a b : endian) : endian_eqb a b = true <-> a = b.
Proof.
  destruct a, b; cbn; split; intros H; try reflexivity; discriminate.
Qed.

Lemma endian_eqb_refl (a : endian) : endian_eqb a a = true.
Proof. now apply endian_eqb_eq. Qed.

Lemma endian_eqb_neq (a b : endian) : a <> b -> endian_eqb a b = false.
Proof.
  intros H. destruct (endian_eqb a b) eqn:E; [| reflexivity].
  now apply endian_eqb_eq in E.
Qed.

(** Every [T] has one of the four sizes [changeEndianess] dispatches on: its
    [static_assert] branch is never taken. *)
Lemma sizeof_cases (T : IntType) :
  sizeof T = 1 \/ sizeof T = 2 \/ sizeof T = 4 \/ sizeof T = 8.
Proof. destruct T; cbn; auto. Qed.

Lemma byte_count_pow (T : IntType) :
  256 ^ Z.of_nat (Z.to_nat (sizeof T)) = 2 ^ bits T.
Proof. destruct T; reflexivity. Qed.

(** Narrowing a [T] value to [n <= bits T] bits keeps its low [n] bits,
    whether [T] is signed or not. *)
Lemma to_unsigned_low (T : IntType) (n v : Z) :
  0 <= n <= bits T -> to_unsigned T n v = v mod 2 ^ n.
Proof.
  intros Hn. unfold to_unsigned.
  destruct (is_signed_type T); [| reflexivity].
  rewrite <- (mod_mod_pow2 (signed_of (bits T) v) n (bits T)) by lia.
  rewrite signed_of_mod.
  now apply mod_mod_pow2.
Qed.

Lemma of_unsigned_small (T : IntType) (n u : Z) :
  0 <= n <= bits T -> 0 <= u < 2 ^ n -> of_unsigned T u = u.
Proof.
  intros Hn Hu. unfold of_unsigned. apply Z.mod_small.
  pose proof (pow2_mono n (bits T) Hn). lia.
Qed.

(** One call of a builtin on a [T] value, on [k] bytes not more than [T] has:
    the reversal of the [k] low bytes, zero above them. *)
Lemma swap_through_builtin (T : IntType) (k : nat) (v : Z) :
  8 * Z.of_nat k <= bits T ->
  of_unsigned T (bswap k (to_unsigned T (8 * Z.of_nat k) v))
  = bswap k (v mod 2 ^ (8 * Z.of_nat k)).
Proof.
  intros Hk.
  rewrite to_unsigned_low by lia.
  apply (of_unsigned_small T (8 * Z.of_nat k)); [lia |].
  rewrite <- pow256. apply bswap_bound.
Qed.

(** ** The endianness normaliser *)

Section EndiannessProperties.

Variable native : endian.

Lemma changeEndianess_sized_native (T : IntType) (value size : Z) :
  changeEndianess_sized native T value size native = Ok value.
Proof.
  unfold changeEndianess_sized. now rewrite endian_eqb_refl.
Qed.

(** With a non-native order the statically typed overload reverses all the
    bytes of the value. *)
Lemma changeEndianess_swaps (T : IntType) (value : Z) (e : endian) :
  e <> native ->
  in_range T value ->
  changeEndianess native T value e = bswap (Z.to_nat (sizeof T)) value.
Proof.
  intros He Hv. unfold changeEndianess, bswap16, bswap32, bswap64.
  rewrite (endian_eqb_neq _ _ He).
  unfold in_range in Hv.
  destruct T; cbn [sizeof Z.eqb Pos.eqb] in *;
    try (change (Z.to_nat 1) with 1%nat;
         unfold bswap; cbn [to_bytes rev app of_bytes];
         cbn in Hv; rewrite Z.mod_small by lia; lia).
  all: match goal with
       | |- of_unsigned ?T (bswap ?k (to_unsigned _ ?n _)) = _ =>
           change n with (8 * Z.of_nat k);
           rewrite (swap_through_builtin T k) by (cbn; lia);
           rewrite Z.mod_small by exact Hv; reflexivity
       end.
Qed.

Lemma changeEndianess_in_range (T : IntType) (value : Z) (e : endian) :
  e <> native ->
  in_range T value ->
  in_range T (changeEndianess native T value e).
Proof.
  intros He Hv. rewrite changeEndianess_swaps by assumption.
  unfold in_range. rewrite <- byte_count_pow. apply bswap_bound.
Qed.

End EndiannessProperties.

(** C4. The statically typed [changeEndianess] is an involution: for every
    integer type of 2, 4 or 8 bytes, every value of it and every requested
    order other than the native one, applying it twice with that order gives
    back the value. *)
Theorem changeEndianess_involutive
  (native : endian) (T : IntType) (value : Z) (e : endian) :
  sizeof T = 2 \/ sizeof T = 4 \/ sizeof T = 8 ->
  in_range T value ->
  e <> native ->
  changeEndianess native T (changeEndianess native T value e) e = value.
Proof.
  intros _ Hv He.
  rewrite (changeEndianess_swaps native T (changeEndianess native T value e))
    by (try apply changeEndianess_in_range; assumption).
  rewrite changeEndianess_swaps by assumption.
  rewrite bswap_bswap, byte_count_pow.
  now apply Z.mod_small.
Qed.

Lemma changeEndianess_involutive_witness :
  changeEndianess little U32 (changeEndianess little U32 0x12345678 big) big
  = 0x12345678.
Proof.
  apply (changeEndianess_involutive little U32 0x12345678 big).
  - right; left; reflexivity.
  - unfold in_range; cbn; lia.
  - discriminate.
Defined.

(** C7. [changeEndianess] returns the value unchanged whenever the requested
    order is the native one, in the statically typed overload and in the
    size-parameterized one (for every byte count, the supported 1, 2, 4 and 8
    among them); the statically typed overload also returns the value
    unchanged when [sizeof(T) == 1], whatever the requested order. *)
Theorem changeEndianess_native_identity
  (native : endian) (T : IntType) (value : Z) :
  changeEndianess native T value native = value
  /\ (forall size, changeEndianess_sized native T value size native = Ok value)
  /\ (forall e, sizeof T = 1 -> changeEndianess native T value e = value).
Proof.
  repeat split.
  - unfold changeEndianess. now rewrite endian_eqb_refl.
  - intros size. apply changeEndianess_sized_native.
  - intros e H1. unfold changeEndianess. rewrite H1.
    now destruct (endian_eqb e native).
Qed.

Lemma changeEndianess_native_identity_witness :
  changeEndianess little U8 0xAB little = 0xAB
  /\ changeEndianess_sized little U8 0xAB 1 little = Ok 0xAB
  /\ changeEndianess little U8 0xAB big = 0xAB.
Proof.
  destruct (changeEndianess_native_identity little U8 0xAB) as (H1 & H2 & H3).
  split; [exact H1 |].
  split; [exact (H2 1) |].
  apply (H3 big). reflexivity.
Defined.

(** C3, as amended.  For every value and every requested order other than the
    native one, the size-parameterized [changeEndianess] throws
    [std::invalid_argument] when the byte count is not one of 1, 2, 4, 8 (in
    particular for 0, 3, 5, 7, 9); for every requested order it succeeds when
    the byte count is one of 1, 2, 4, 8. *)
Theorem changeEndianess_sized_size_check
  (native : endian) (T : IntType) (value size : Z) (e : endian) :
  (e <> native ->
   size <> 1 -> size <> 2 -> size <> 4 -> size <> 8 ->
   changeEndianess_sized native T value size e
   = Throw (invalid_argument "Invalid value size!"))
  /\ (size = 1 \/ size = 2 \/ size = 4 \/ size = 8 ->
      succeeds (changeEndianess_sized native T value size e)).
Proof.
  unfold changeEndianess_sized, succeeds. split.
  - intros He H1 H2 H4 H8.
    rewrite (endian_eqb_neq _ _ He).
    apply Z.eqb_neq in H1, H2, H4, H8.
    now rewrite H1, H2, H4, H8.
  - intros Hs. destruct (endian_eqb e native); [eauto |].
    destruct Hs as [-> | [-> | [-> | ->]]]; cbn; eauto.
Qed.

Lemma changeEndianess_sized_size_check_witness :
  changeEndianess_sized little U64 0x1234 3 big
  = Throw (invalid_argument "Invalid value size!")
  /\ succeeds (changeEndianess_sized little U64 0x1234 2 big).
Proof.
  split.
  - apply (changeEndianess_sized_size_check little U64 0x1234 3 big);
      [discriminate | lia | lia | lia | lia].
  - apply (changeEndianess_sized_size_check little U64 0x1234 2 big).
    right; left; reflexivity.
Defined.

(** C3 as stated fails on the code: it claims the failure for every requested
    order, and with the native order the byte counts 0, 3, 5, 7 and 9 are
    accepted and the value is returned. *)
Lemma changeEndianess_sized_counterexample :
  changeEndianess_sized little U64 0x1234 0 little = Ok 0x1234
  /\ changeEndianess_sized little U64 0x1234 3 little = Ok 0x1234
  /\ changeEndianess_sized little U64 0x1234 5 little = Ok 0x1234
  /\ changeEndianess_sized little U64 0x1234 7 little = Ok 0x1234
  /\ changeEndianess_sized little U64 0x1234 9 little = Ok 0x1234
  /\ ~ (exists ex,
          changeEndianess_sized little U64 0x1234 3 little = Throw ex).
Proof.
  repeat split. intros [ex H]. discriminate H.
Qed.

(** C9. The size-parameterized [changeEndianess] tests the byte order before
    the size: with the native order it returns the value unchanged and throws
    nothing, for every value and every byte count (0, 3, 5, 7, 9 included);
    it can only throw when the requested order differs from the native one. *)
Theorem changeEndianess_sized_order_first
  (native : endian) (T : IntType) (value size : Z) :
  changeEndianess_sized native T value size native = Ok value
  /\ (forall e ex,
        changeEndianess_sized native T value size e = Throw ex ->
        e <> native).
Proof.
  split; [apply changeEndianess_sized_native |].
  intros e ex Hthrow ->.
  rewrite changeEndianess_sized_native in Hthrow. discriminate Hthrow.
Qed.

Lemma changeEndianess_sized_order_first_witness :
  changeEndianess_sized little U64 0x1234 3 little = Ok 0x1234
  /\ big <> little.
Proof.
  destruct (changeEndianess_sized_order_first little U64 0x1234 3) as [H1 H2].
  split; [exact H1 |].
  apply (H2 big (invalid_argument "Invalid value size!")). reflexivity.
Defined.

(** C10, as amended.  With an order other than the native one:
    - when the size-parameterized [changeEndianess] is called with a byte
      count of 2 or 4 on a value of a wider integer type, the result is the
      byte reversal of the low [8 * size] bits of the value, with every bit
      above them zero: the bits of the input above [8 * size] are discarded, a
      second call gives back only the low [8 * size] bits of the value, and so
      does not restore a value that has a bit set above them;
    - with the byte count 1 the value is returned unchanged, its higher bits
      included, for every integer type and every value. *)
Theorem changeEndianess_sized_narrow
  (native : endian) (T : IntType) (value : Z) (e : endian) :
  e <> native ->
  changeEndianess_sized native T value 1 e = Ok value
  /\ (forall size,
        size = 2 \/ size = 4 ->
        size < sizeof T ->
        in_range T value ->
        let low := value mod 2 ^ (8 * size) in
        let swapped := bswap (Z.to_nat size) low in
        changeEndianess_sized native T value size e = Ok swapped
        /\ 0 <= swapped < 2 ^ (8 * size)
        /\ changeEndianess_sized native T swapped size e = Ok low
        /\ (2 ^ (8 * size) <= value -> low <> value)).
Proof.
  intros He. split.
  { unfold changeEndianess_sized. now rewrite (endian_eqb_neq _ _ He). }
  intros size Hsize Hwide Hv low swapped.
  assert (Hk : exists k : nat, size = Z.of_nat k /\ (k = 2 \/ k = 4)%nat).
  { destruct Hsize as [-> | ->]; [exists 2%nat | exists 4%nat]; auto. }
  destruct Hk as (k & -> & Hk).
  assert (Hfit : 8 * Z.of_nat k <= bits T) by (unfold bits; lia).
  assert (Hp : 0 < 2 ^ (8 * Z.of_nat k)) by (apply pow2_pos; lia).
  assert (Hswapped : 0 <= swapped < 2 ^ (8 * Z.of_nat k)).
  { subst swapped. rewrite Nat2Z.id, <- pow256. apply bswap_bound. }
  assert (Hcall : forall v,
             changeEndianess_sized native T v (Z.of_nat k) e
             = Ok (bswap k (v mod 2 ^ (8 * Z.of_nat k)))).
  { intros v. unfold changeEndianess_sized, bswap16, bswap32.
    rewrite (endian_eqb_neq _ _ He).
    destruct Hk as [-> | ->].
    - exact (f_equal Ok (swap_through_builtin T 2 v Hfit)).
    - exact (f_equal Ok (swap_through_builtin T 4 v Hfit)). }
  split; [| split; [| split]].
  - rewrite Hcall. subst swapped low. now rewrite Nat2Z.id.
  - exact Hswapped.
  - rewrite Hcall, (Z.mod_small swapped) by exact Hswapped.
    subst swapped. rewrite Nat2Z.id, bswap_bswap, pow256.
    subst low. now rewrite Z.mod_mod by lia.
  - intros Hhigh Heq. subst low.
    pose proof (Z.mod_pos_bound value (2 ^ (8 * Z.of_nat k)) Hp). lia.
Qed.

Lemma changeEndianess_sized_narrow_witness :
  changeEndianess_sized little U16 0x1234 1 big = Ok 0x1234
  /\ changeEndianess_sized little U64 0xAABB1234 2 big = Ok 0x3412
  /\ 0 <= 0x3412 < 2 ^ (8 * 2)
  /\ changeEndianess_sized little U64 0x3412 2 big = Ok 0x1234
  /\ (2 ^ (8 * 2) <= 0xAABB1234 -> 0x1234 <> 0xAABB1234).
Proof.
  destruct (changeEndianess_sized_narrow little U16 0x1234 big) as [H1 _];
    [discriminate |].
  destruct (changeEndianess_sized_narrow little U64 0xAABB1234 big) as [_ H2];
    [discriminate |].
  split; [exact H1 |].
  apply (H2 2).
  - left; reflexivity.
  - reflexivity.
  - unfold in_range; cbn; lia.
Defined.

(** C10 as stated fails on the code for the byte count 1: on the [u64] value
    0x1234 and a non-native order the code returns 0x1234, the higher byte
    kept, where the reversal of the low 8 bits alone is 0x34; a second call
    gives 0x1234 again, the value itself. *)
Lemma changeEndianess_sized_narrow_counterexample :
  changeEndianess_sized little U64 0x1234 1 big = Ok 0x1234
  /\ bswap (Z.to_nat 1) (0x1234 mod 2 ^ (8 * 1)) = 0x34
  /\ changeEndianess_sized little U64 0x1234 1 big
     <> Ok (bswap (Z.to_nat 1) (0x1234 mod 2 ^ (8 * 1))).
Proof.
  repeat split. vm_compute. discriminate.
Qed.

(** ** Further properties of the bit extractor *)

(** Bit [i] of the field of [w] bits that starts at bit [t]. *)
Lemma field_testbit (v t w i : Z) :
  0 <= t -> 0 <= w -> 0 <= i ->
  Z.testbit ((v / 2 ^ t) mod 2 ^ w) i = (i <? w) && Z.testbit v (t + i).
Proof.
  intros Ht Hw Hi.
  rewrite <- Z.land_ones, <- Z.shiftr_div_pow2 by lia.
  rewrite Z.land_spec, Z.shiftr_spec, Z.testbit_ones by lia.
  replace (0 <=? i) with true by (symmetry; apply Z.leb_le; lia).
  rewrite (Z.add_comm i t). cbn [andb]. apply andb_comm.
Qed.

Lemma extract_field (from to value : Z) :
  0 <= to <= from -> from <= 63 ->
  extract from to value = Some ((value / 2 ^ to) mod 2 ^ (from - to + 1)).
Proof.
  intros Hto Hfrom.
  rewrite extract_value, extract_mask by lia.
  now rewrite extract_masked_shift by lia.
Qed.

(** Above bit 63 the mask of [extract] is cut by the left shift. *)
Lemma extract_mask_cut (from to : Z) :
  0 <= to <= 63 -> 63 <= from <= to + 63 ->
  (Z.ones (from - to + 1) * 2 ^ to) mod 2 ^ 64
  = (Z.ones (63 - to + 1) * 2 ^ to) mod 2 ^ 64.
Proof.
  intros Hto Hfrom.
  assert (Hp : 0 < 2 ^ to) by (apply pow2_pos; lia).
  rewrite (pow2_split to 64) by lia.
  rewrite !Z.mul_mod_distr_r by lia.
  f_equal.
  replace (63 - to + 1) with (64 - to) by lia.
  rewrite !Z.ones_mod_pow2 by lia. reflexivity.
Qed.

Lemma extract_above_top (from to value : Z) :
  0 <= to <= 63 -> 63 <= from <= to + 63 ->
  extract from to value = extract 63 to value.
Proof.
  intros Hto Hfrom. unfold extract.
  rewrite !shr64_in_range by lia. cbn [bind].
  rewrite !shl64_in_range by lia. cbn [bind].
  rewrite u64_max_ones, !Z.ones_div_pow2 by lia.
  replace (64 - (63 - (from - to))) with (from - to + 1) by lia.
  replace (64 - (63 - (63 - to))) with (63 - to + 1) by lia.
  now rewrite (extract_mask_cut from to).
Qed.

(** X1. [extract] is free of undefined shifts exactly when
    [0 <= to <= 63] and [to <= from <= to + 63]: a range that ends below its
    start, a start above bit 63 or a range of more than 64 bits makes one of
    the three shift amounts negative or larger than 63. *)
Theorem extract_defined_iff (from to value : Z) :
  extract from to value <> None
  <-> (0 <= to <= 63 /\ to <= from <= to + 63).
Proof.
  unfold extract, shr64, shl64, shift_ok.
  destruct (Z.leb_spec 0 (63 - (from - to)));
    destruct (Z.ltb_spec (63 - (from - to)) 64);
    destruct (Z.leb_spec 0 to);
    destruct (Z.ltb_spec to 64);
    cbn [andb bind]; split; intros Hdef; try lia; try congruence;
    try discriminate; try (exfalso; apply Hdef; reflexivity).
Qed.

Lemma extract_defined_iff_witness :
  extract 70 10 0x1234ABFF <> None.
Proof.
  apply (proj2 (extract_defined_iff 70 10 0x1234ABFF)). lia.
Defined.

(** X2. A range that starts inside the word and ends above bit 63 is cut at
    bit 63: for a [u64] [value], [0 <= to <= 63] and [to <= from <= to + 63],
    [extract from to value] is the field of the bits [to .. min(from, 63)],
    and for [from >= 63] that is [value >> to]. *)
Theorem extract_clamps_at_top (from to value : Z) :
  0 <= value < 2 ^ 64 ->
  0 <= to <= 63 ->
  to <= from <= to + 63 ->
  extract from to value
  = Some ((value / 2 ^ to) mod 2 ^ (Z.min from 63 - to + 1))
  /\ (63 <= from -> extract from to value = Some (value / 2 ^ to)).
Proof.
  intros Hv Hto Hfrom.
  assert (Hp : 0 < 2 ^ to) by (apply pow2_pos; lia).
  assert (Htop : extract 63 to value = Some (value / 2 ^ to)).
  { rewrite extract_field by lia. f_equal. apply Z.mod_small. split.
    - apply Z.div_pos; lia.
    - apply Z.div_lt_upper_bound; [lia |].
      replace (63 - to + 1) with (64 - to) by lia.
      rewrite Z.mul_comm, <- pow2_split by lia. lia. }
  split.
  - destruct (Z.le_gt_cases from 63) as [Hle | Hgt].
    + rewrite Z.min_l by lia. apply extract_field; lia.
    + rewrite Z.min_r by lia.
      rewrite extract_above_top by lia. now apply extract_field.
  - intros H63. now rewrite extract_above_top by lia.
Qed.

Lemma extract_clamps_at_top_witness :
  extract 100 48 0xABCD000000001234
  = Some ((0xABCD000000001234 / 2 ^ 48) mod 2 ^ (Z.min 100 63 - 48 + 1))
  /\ (63 <= 100 ->
      extract 100 48 0xABCD000000001234 = Some (0xABCD000000001234 / 2 ^ 48)).
Proof.
  apply (extract_clamps_at_top 100 48 0xABCD000000001234); lia.
Defined.

(** X3. Extracting from an extracted field is one extraction from the word:
    for [0 <= t1 <= f1 <= 63] and a sub-range [0 <= t2 <= f2 <= f1 - t1] of
    the field, [extract f2 t2] applied to [extract f1 t1 value] is
    [extract (t1 + f2) (t1 + t2) value]. *)
Theorem extract_nested (f1 t1 f2 t2 value : Z) :
  0 <= t1 <= f1 ->
  f1 <= 63 ->
  0 <= t2 <= f2 ->
  f2 <= f1 - t1 ->
  (r <- extract f1 t1 value ;; extract f2 t2 r)
  = extract (t1 + f2) (t1 + t2) value.
Proof.
  intros H1 Hf1 H2 Hf2.
  rewrite (extract_field f1 t1) by lia. cbn [bind].
  rewrite !extract_field by lia.
  f_equal. apply Z.bits_inj'. intros i Hi.
  rewrite !field_testbit by lia.
  replace (t1 + f2 - (t1 + t2) + 1) with (f2 - t2 + 1) by lia.
  replace (t1 + t2 + i) with (t1 + (t2 + i)) by lia.
  destruct (Z.ltb_spec i (f2 - t2 + 1)) as [Hlt | Hge]; cbn [andb];
    [| reflexivity].
  replace (t2 + i <? f1 - t1 + 1) with true
    by (symmetry; apply Z.ltb_lt; lia).
  reflexivity.
Qed.

Lemma extract_nested_witness :
  (r <- extract 15 4 0x1234ABFF ;; extract 7 4 r)
  = extract (4 + 7) (4 + 4) 0x1234ABFF.
Proof.
  apply (extract_nested 15 4 7 4 0x1234ABFF); lia.
Defined.

(** X4. A field is the concatenation of its two parts: for
    [0 <= to < m <= from <= 63] the field [to .. from] of [value] is the field
    [m .. from] shifted left by [m - to], plus the field [to .. m - 1]. *)
Theorem extract_split (from m to value : Z) :
  0 <= to < m ->
  m <= from ->
  from <= 63 ->
  exists hi lo,
    extract from m value = Some hi
    /\ extract (m - 1) to value = Some lo
    /\ extract from to value = Some (hi * 2 ^ (m - to) + lo)
    /\ 0 <= lo < 2 ^ (m - to).
Proof.
  intros Hto Hm Hfrom.
  assert (Hpt : 0 < 2 ^ to) by (apply pow2_pos; lia).
  assert (Hpm : 0 < 2 ^ (m - to)) by (apply pow2_pos; lia).
  assert (Hph : 0 < 2 ^ (from - m + 1)) by (apply pow2_pos; lia).
  exists ((value / 2 ^ m) mod 2 ^ (from - m + 1)).
  exists ((value / 2 ^ to) mod 2 ^ (m - 1 - to + 1)).
  rewrite !extract_field by lia.
  replace (m - 1 - to + 1) with (m - to) by lia.
  repeat split; try (apply Z.mod_pos_bound; lia).
  f_equal.
  replace (from - to + 1) with ((m - to) + (from - m + 1)) by lia.
  rewrite Z.pow_add_r by lia.
  rewrite Z.rem_mul_r by lia.
  rewrite Z.div_div by lia.
  rewrite <- Z.pow_add_r by lia.
  replace (to + (m - to)) with m by lia.
  lia.
Qed.

Lemma extract_split_witness :
  exists hi lo,
    extract 31 16 0x1234ABFF = Some hi
    /\ extract (16 - 1) 0 0x1234ABFF = Some lo
    /\ extract 31 0 0x1234ABFF = Some (hi * 2 ^ (16 - 0) + lo)
    /\ 0 <= lo < 2 ^ (16 - 0).
Proof.
  apply (extract_split 31 16 0 0x1234ABFF); lia.
Defined.

(** ** Further properties of sign extension *)

(** X5. [signExtend] is free of undefined shifts exactly when both widths are
    in [1 .. 64]; a width of 0, or one above 64, makes a shift amount negative
    or larger than 63. *)
Theorem signExtend_defined_iff (value cw tw : Z) :
  signExtend value cw tw <> None <-> (1 <= cw <= 64 /\ 1 <= tw <= 64).
Proof.
  unfold signExtend, shr64, shl64, shift_ok.
  destruct (Z.leb_spec 0 (cw - 1));
    destruct (Z.ltb_spec (cw - 1) 64);
    destruct (Z.leb_spec 0 (64 - tw));
    destruct (Z.ltb_spec (64 - tw) 64);
    cbn [andb bind]; split; intros Hdef; try lia; try congruence;
    try discriminate; try (exfalso; apply Hdef; reflexivity).
Qed.

Lemma signExtend_defined_iff_witness :
  signExtend 0xA 4 64 <> None.
Proof.
  apply (proj2 (signExtend_defined_iff 0xA 4 64)). lia.
Defined.

(** X6. Widening keeps the signed value: for
    [1 <= currWidth <= targetWidth <= 64] and a [value] that fits on
    [currWidth] bits, the result fits on [targetWidth] bits and, read as a
    [targetWidth]-bit signed integer, is the integer [value] denotes as a
    [currWidth]-bit signed integer. *)
Theorem signExtend_keeps_signed_value (value cw tw : Z) :
  1 <= cw <= tw ->
  tw <= 64 ->
  0 <= value < 2 ^ cw ->
  exists r,
    signExtend value cw tw = Some r
    /\ 0 <= r < 2 ^ tw
    /\ signed_of tw r = signed_of cw value.
Proof.
  intros Hcw Htw Hv.
  exists (twos_complement tw (signed_of cw value)).
  split; [apply signExtend_of_small; lia |].
  split; [apply Z.mod_pos_bound, pow2_pos; lia |].
  apply signed_of_twos_complement; [lia |].
  pose proof (signed_of_range cw value ltac:(lia) Hv).
  pose proof (pow2_mono (cw - 1) (tw - 1) ltac:(lia)).
  lia.
Qed.

Lemma signExtend_keeps_signed_value_witness :
  exists r,
    signExtend 0x800 12 64 = Some r
    /\ 0 <= r < 2 ^ 64
    /\ signed_of 64 r = signed_of 12 0x800.
Proof.
  apply (signExtend_keeps_signed_value 0x800 12 64); lia.
Defined.

(** X7. What widening does to the bit pattern: for
    [1 <= currWidth <= targetWidth <= 64] and a [value] that fits on
    [currWidth] bits, a value with its sign bit clear is returned unchanged,
    and a value with its sign bit set gets the bits
    [currWidth .. targetWidth - 1] set, that is [2^targetWidth - 2^currWidth]
    is added to it. *)
Theorem signExtend_fills_sign (value cw tw : Z) :
  1 <= cw <= tw ->
  tw <= 64 ->
  0 <= value < 2 ^ cw ->
  signExtend value cw tw
  = Some (if Z.testbit value (cw - 1)
          then value + (2 ^ tw - 2 ^ cw)
          else value).
Proof.
  intros Hcw Htw Hv.
  rewrite signExtend_of_small by lia.
  rewrite (testbit_top (cw - 1) value)
    by (replace (cw - 1 + 1) with cw by lia; lia).
  pose proof (signed_of_range cw value ltac:(lia) Hv) as Hs.
  pose proof (pow2_mono (cw - 1) (tw - 1) ltac:(lia)) as Hm.
  pose proof (pow2_mono cw tw ltac:(lia)) as Hm'.
  assert (Hp : 0 < 2 ^ (tw - 1)) by (apply pow2_pos; lia).
  assert (H2 : 2 ^ tw = 2 * 2 ^ (tw - 1)).
  { rewrite <- (Z.pow_succ_r 2 (tw - 1)) by lia. f_equal. lia. }
  unfold twos_complement, signed_of in *. f_equal.
  destruct (Z.ltb_spec value (2 ^ (cw - 1))); cbn [negb].
  - apply Z.mod_small. lia.
  - rewrite <- (Z.mod_add (value - 2 ^ cw) 1 (2 ^ tw)) by lia.
    rewrite Z.mod_small by lia. lia.
Qed.

Lemma signExtend_fills_sign_witness :
  signExtend 0x800 12 16
  = Some (if Z.testbit 0x800 (12 - 1)
          then 0x800 + (2 ^ 16 - 2 ^ 12)
          else 0x800).
Proof.
  apply (signExtend_fills_sign 0x800 12 16); lia.
Defined.

(** X8. Narrowing truncates: for [1 <= targetWidth <= currWidth <= 64] and
    every [value], [signExtend value currWidth targetWidth] is the low
    [targetWidth] bits of [value]. *)
Theorem signExtend_narrowing_truncates (value cw tw : Z) :
  1 <= tw <= cw ->
  cw <= 64 ->
  signExtend value cw tw = Some (value mod 2 ^ tw).
Proof.
  intros Htw Hcw.
  rewrite signExtend_truncates by lia.
  rewrite lxor_pow2 by lia.
  assert (Hp : 0 < 2 ^ tw) by (apply pow2_pos; lia).
  assert (H2 : 2 ^ (cw - 1) + 2 ^ (cw - 1) = 2 ^ (cw - tw) * 2 ^ tw).
  { rewrite <- pow2_split by lia.
    rewrite (pow2_double cw) by lia. lia. }
  f_equal.
  destruct (Z.testbit value (cw - 1)).
  - replace (value - 2 ^ (cw - 1) - 2 ^ (cw - 1))
      with (value + (- 2 ^ (cw - tw)) * 2 ^ tw) by lia.
    apply Z.mod_add. lia.
  - f_equal. lia.
Qed.

Lemma signExtend_narrowing_truncates_witness :
  signExtend 0xFFFFFFFFFFFFFABC 16 8 = Some (0xFFFFFFFFFFFFFABC mod 2 ^ 8).
Proof.
  apply (signExtend_narrowing_truncates 0xFFFFFFFFFFFFFABC 16 8); lia.
Defined.

(** X9. Widening in two steps is widening in one: for
    [1 <= a <= b <= c <= 64] and a [value] that fits on [a] bits, extending
    from [a] to [b] bits and then from [b] to [c] bits gives the extension
    from [a] to [c] bits. *)
Theorem signExtend_compose (value a b c : Z) :
  1 <= a <= b ->
  b <= c ->
  c <= 64 ->
  0 <= value < 2 ^ a ->
  (r <- signExtend value a b ;; signExtend r b c) = signExtend value a c.
Proof.
  intros Ha Hb Hc Hv.
  rewrite (signExtend_of_small value a b) by lia. cbn [bind].
  rewrite (signExtend_of_small value a c) by lia.
  rewrite signExtend_of_small;
    [| lia | lia | apply Z.mod_pos_bound, pow2_pos; lia].
  rewrite signed_of_twos_complement; [reflexivity | lia |].
  pose proof (signed_of_range a value ltac:(lia) Hv).
  pose proof (pow2_mono (a - 1) (b - 1) ltac:(lia)).
  lia.
Qed.

Lemma signExtend_compose_witness :
  (r <- signExtend 0xA 4 8 ;; signExtend r 8 32) = signExtend 0xA 4 32.
Proof.
  apply (signExtend_compose 0xA 4 8 32); lia.
Defined.

(** X10. The two helpers compose as a signed field read: for
    [0 <= to <= from <= 63] and a target width that holds the field,
    [from - to + 1 <= targetWidth <= 64], extracting the bits [to .. from]
    and sign-extending the result from the width [from - to + 1] of the field
    gives a pattern below [2^targetWidth] that, read as a [targetWidth]-bit
    two's-complement integer, is the signed integer the field denotes. *)
Theorem extract_then_signExtend_field (from to tw value : Z) :
  0 <= to <= from ->
  from <= 63 ->
  from - to + 1 <= tw ->
  tw <= 64 ->
  exists r,
    (n <- extract from to value ;; signExtend n (from - to + 1) tw) = Some r
    /\ 0 <= r < 2 ^ tw
    /\ signed_of tw r
       = signed_of (from - to + 1)
           ((value / 2 ^ to) mod 2 ^ (from - to + 1)).
Proof.
  intros Hto Hfrom Hfit Htw.
  assert (Hfield : 0 <= (value / 2 ^ to) mod 2 ^ (from - to + 1)
                   < 2 ^ (from - to + 1))
    by (apply Z.mod_pos_bound, pow2_pos; lia).
  exists (twos_complement tw
            (signed_of (from - to + 1)
               ((value / 2 ^ to) mod 2 ^ (from - to + 1)))).
  split.
  - rewrite extract_field by lia. cbn [bind].
    apply signExtend_of_small; [lia | lia | exact Hfield].
  - apply signExtend_reads_back; [lia | lia | exact Hfield].
Qed.

Lemma extract_then_signExtend_field_witness :
  exists r,
    (n <- extract 7 4 0xA5 ;; signExtend n (7 - 4 + 1) 8) = Some r
    /\ 0 <= r < 2 ^ 8
    /\ signed_of 8 r
       = signed_of (7 - 4 + 1) ((0xA5 / 2 ^ 4) mod 2 ^ (7 - 4 + 1)).
Proof.
  apply (extract_then_signExtend_field 7 4 8 0xA5); lia.
Defined.

(** ** Further properties of the type descriptor decoder *)

(** X11. The decoder reads back what a tag is packed from: for a size
    [s < 2^28] and class bits [c < 16], the tag [(s << 4) + c] has
    [getTypeSize] [s], and it is unsigned, signed or floating point exactly
    when [c] is 0, 1 or 2. *)
Theorem decode_packed_tag (s c : Z) :
  0 <= s < 2 ^ 28 ->
  0 <= c < 16 ->
  getTypeSize (Z.shiftl s 4 + c) = s
  /\ isUnsigned (Z.shiftl s 4 + c) = (c =? 0)
  /\ isSigned (Z.shiftl s 4 + c) = (c =? 1)
  /\ isFloatingPoint (Z.shiftl s 4 + c) = (c =? 2).
Proof.
  intros Hs Hc.
  rewrite Z.shiftl_mul_pow2 by lia. change (2 ^ 4) with 16.
  assert (Hnib : (s * 16 + c) mod 16 = c).
  { rewrite Z.add_comm, Z.mod_add by lia. apply Z.mod_small. lia. }
  unfold isUnsigned, isSigned, isFloatingPoint.
  rewrite low_nibble, Hnib.
  repeat split.
  unfold getTypeSize, to_u32.
  rewrite Z.mod_small by lia.
  rewrite Z.shiftr_div_pow2 by lia. change (2 ^ 4) with 16.
  rewrite Z.div_add_l by lia.
  rewrite (Z.div_small c 16) by lia. lia.
Qed.

Lemma decode_packed_tag_witness :
  getTypeSize (Z.shiftl 4 4 + 2) = 4
  /\ isUnsigned (Z.shiftl 4 4 + 2) = (2 =? 0)
  /\ isSigned (Z.shiftl 4 4 + 2) = (2 =? 1)
  /\ isFloatingPoint (Z.shiftl 4 4 + 2) = (2 =? 2).
Proof.
  apply (decode_packed_tag 4 2); lia.
Defined.

(** X12. On classified tags decoding loses nothing: two 32-bit tags on which
    [getTypeSize], [isUnsigned], [isSigned] and [isFloatingPoint] all agree,
    and one of which is of one of the three classes, are the same tag.  The
    class is needed: the unclassified tags 0x13 and 0x1F differ although the
    four functions agree on them. *)
Theorem decode_classified_is_lossless (t1 t2 : Z) :
  0 <= t1 < 2 ^ 32 ->
  0 <= t2 < 2 ^ 32 ->
  getTypeSize t1 = getTypeSize t2 ->
  isUnsigned t1 = isUnsigned t2 ->
  isSigned t1 = isSigned t2 ->
  isFloatingPoint t1 = isFloatingPoint t2 ->
  class_count t1 = 1%nat ->
  t1 = t2
  /\ (getTypeSize 0x13 = getTypeSize 0x1F
      /\ isUnsigned 0x13 = isUnsigned 0x1F
      /\ isSigned 0x13 = isSigned 0x1F
      /\ isFloatingPoint 0x13 = isFloatingPoint 0x1F
      /\ class_count 0x13 = 0%nat
      /\ 0x13 <> 0x1F).
Proof.
  intros H1 H2 Hsize Hu Hs Hf Hclass.
  split; [| repeat split; discriminate].
  assert (Hnib : t1 mod 16 = t2 mod 16).
  { unfold class_count, isUnsigned, isSigned, isFloatingPoint in *.
    rewrite !low_nibble in *.
    revert Hu Hs Hf Hclass.
    destruct (Z.eqb_spec (t1 mod 16) 0x00) as [E0 | E0];
      destruct (Z.eqb_spec (t1 mod 16) 0x01) as [E1 | E1];
      destruct (Z.eqb_spec (t1 mod 16) 0x02) as [E2 | E2];
      cbn [Nat.b2n Nat.add]; intros Hu Hs Hf Hclass;
      try discriminate Hclass; lia. }
  unfold getTypeSize, to_u32 in Hsize.
  rewrite !Z.mod_small, !Z.shiftr_div_pow2 in Hsize by lia.
  change (2 ^ 4) with 16 in Hsize.
  rewrite (Z.div_mod t1 16), (Z.div_mod t2 16) by lia.
  now rewrite Hsize, Hnib.
Qed.

Lemma decode_classified_is_lossless_witness :
  0x42 = 0x42
  /\ (getTypeSize 0x13 = getTypeSize 0x1F
      /\ isUnsigned 0x13 = isUnsigned 0x1F
      /\ isSigned 0x13 = isSigned 0x1F
      /\ isFloatingPoint 0x13 = isFloatingPoint 0x1F
      /\ class_count 0x13 = 0%nat
      /\ 0x13 <> 0x1F).
Proof.
  apply (decode_classified_is_lossless 0x42 0x42);
    [lia | lia | reflexivity | reflexivity | reflexivity | reflexivity
    | reflexivity].
Defined.

(** ** Further properties of the byte lists *)

Lemma to_bytes_zero (m : nat) : to_bytes m 0 = repeat 0 m.
Proof.
  induction m as [| m IH]; cbn [to_bytes repeat]; [reflexivity |].
  now rewrite Z.mod_0_l, Z.div_0_l, IH by lia.
Qed.

Lemma of_bytes_zeros (m : nat) : of_bytes (repeat 0 m) = 0.
Proof.
  induction m as [| m IH]; cbn [of_bytes repeat]; [reflexivity |].
  rewrite IH. reflexivity.
Qed.

Lemma of_bytes_app (a b : list Z) :
  of_bytes (a ++ b) = of_bytes a + 256 ^ Z.of_nat (length a) * of_bytes b.
Proof.
  induction a as [| x a IH]; cbn [app of_bytes length].
  - rewrite Z.pow_0_r. lia.
  - rewrite IH, Nat2Z.inj_succ, Z.pow_succ_r by lia. lia.
Qed.

(** The bytes of a value that fits on [k] bytes, written on [k + m] bytes. *)
Lemma to_bytes_small (k m : nat) (v : Z) :
  0 <= v < 256 ^ Z.of_nat k ->
  to_bytes (k + m) v = to_bytes k v ++ repeat 0 m.
Proof.
  revert v. induction k as [| k IH]; intros v Hv.
  - cbn [Nat.add to_bytes app]. rewrite Z.pow_0_r in Hv.
    replace v with 0 by lia. apply to_bytes_zero.
  - rewrite Nat2Z.inj_succ, Z.pow_succ_r in Hv by lia.
    cbn [Nat.add to_bytes app]. f_equal. apply IH. split.
    + apply Z.div_pos; lia.
    + apply Z.div_lt_upper_bound; lia.
Qed.

(** Swapping a zero-extended value moves the swapped bytes to the top. *)
Lemma bswap_zero_extended (k m : nat) (v : Z) :
  0 <= v < 256 ^ Z.of_nat k ->
  bswap (k + m) v = 256 ^ Z.of_nat m * bswap k v.
Proof.
  intros Hv. unfold bswap.
  rewrite to_bytes_small, rev_app_distr, of_bytes_app by assumption.
  rewrite length_rev, repeat_length.
  replace (rev (repeat 0 m)) with (repeat 0 m).
  - rewrite of_bytes_zeros. lia.
  - clear. induction m as [| m IH]; [reflexivity |].
    cbn [repeat rev]. rewrite <- IH. clear IH.
    induction m as [| m IH]; [reflexivity |].
    cbn [repeat app]. now rewrite <- IH.
Qed.

Lemma nth_to_bytes (n i : nat) (v : Z) :
  (i < n)%nat -> nth i (to_bytes n v) 0 = (v / 256 ^ Z.of_nat i) mod 256.
Proof.
  revert i v. induction n as [| n IH]; intros i v Hi; [lia |].
  cbn [to_bytes]. destruct i as [| i]; cbn [nth].
  - now rewrite Z.pow_0_r, Z.div_1_r.
  - rewrite IH by lia.
    rewrite Nat2Z.inj_succ, Z.pow_succ_r by lia.
    rewrite Z.div_div by (try apply Z.pow_pos_nonneg; lia).
    reflexivity.
Qed.

(** Byte [i] of the swapped value is byte [n - 1 - i] of the operand. *)
Lemma bswap_byte (n i : nat) (v : Z) :
  (i < n)%nat ->
  (bswap n v / 256 ^ Z.of_nat i) mod 256
  = (v / 256 ^ Z.of_nat (n - 1 - i)) mod 256.
Proof.
  intros Hi.
  destruct (rev_bytes_are_bytes n v) as [Hb Hl].
  rewrite <- (nth_to_bytes n i) by assumption.
  rewrite <- (nth_to_bytes n (n - 1 - i)) by lia.
  unfold bswap.
  pose proof (to_bytes_of_bytes _ Hb) as H. rewrite Hl in H. rewrite H.
  rewrite rev_nth by (rewrite length_to_bytes; lia).
  rewrite length_to_bytes. f_equal. lia.
Qed.

(** ** Further properties of the endianness normaliser *)

Lemma bswap_injective (n : nat) (v1 v2 : Z) :
  0 <= v1 < 256 ^ Z.of_nat n ->
  0 <= v2 < 256 ^ Z.of_nat n ->
  bswap n v1 = bswap n v2 -> v1 = v2.
Proof.
  intros H1 H2 Heq.
  rewrite <- (Z.mod_small v1 (256 ^ Z.of_nat n)) by assumption.
  rewrite <- (Z.mod_small v2 (256 ^ Z.of_nat n)) by assumption.
  rewrite <- !bswap_bswap. now rewrite Heq.
Qed.

(** A byte count of at least twice the size of an unsigned [T]: the swapped
    bytes all land above the bits of [T]. *)
Lemma swap_wider_than_type (T : IntType) (k m : nat) (v : Z) :
  is_signed_type T = false ->
  bits T = 8 * Z.of_nat k ->
  (k <= m)%nat ->
  in_range T v ->
  of_unsigned T (bswap (k + m) (to_unsigned T (8 * Z.of_nat (k + m)) v)) = 0.
Proof.
  intros Hu Hk Hm Hv. unfold in_range in Hv.
  unfold to_unsigned, of_unsigned. rewrite Hu, Hk in *.
  rewrite <- !pow256 in *.
  assert (Hpk : 0 < 256 ^ Z.of_nat k) by (apply Z.pow_pos_nonneg; lia).
  assert (Hle : 256 ^ Z.of_nat k <= 256 ^ Z.of_nat (k + m))
    by (apply Z.pow_le_mono_r; lia).
  rewrite (Z.mod_small v) by lia.
  rewrite bswap_zero_extended by assumption.
  replace (Z.of_nat m) with (Z.of_nat (m - k) + Z.of_nat k) by lia.
  rewrite Z.pow_add_r by lia.
  replace (256 ^ Z.of_nat (m - k) * 256 ^ Z.of_nat k * bswap k v)
    with (256 ^ Z.of_nat (m - k) * bswap k v * 256 ^ Z.of_nat k) by lia.
  apply Z.mod_mul. lia.
Qed.

(** X13. The two overloads agree when the byte count is the size of the
    type: for every [T], value and requested order,
    [changeEndianess(value, sizeof(T), endian)] succeeds with the result of
    [changeEndianess(value, endian)]. *)
Theorem changeEndianess_overloads_agree
  (native : endian) (T : IntType) (value : Z) (e : endian) :
  changeEndianess_sized native T value (sizeof T) e
  = Ok (changeEndianess native T value e).
Proof.
  unfold changeEndianess_sized, changeEndianess.
  destruct (endian_eqb e native); [reflexivity |].
  destruct T; reflexivity.
Qed.

(** X14. A byte count larger than the type destroys the value: for an
    unsigned [T], a byte count of 2, 4 or 8 above [sizeof(T)] and an order
    other than the native one, the size-parameterized overload succeeds with
    0, whatever the value. *)
Theorem changeEndianess_sized_wide_count
  (native : endian) (T : IntType) (value size : Z) (e : endian) :
  is_signed_type T = false ->
  size = 2 \/ size = 4 \/ size = 8 ->
  sizeof T < size ->
  in_range T value ->
  e <> native ->
  changeEndianess_sized native T value size e = Ok 0.
Proof.
  intros Hu Hsize Hwide Hv He.
  unfold changeEndianess_sized, bswap16, bswap32, bswap64.
  rewrite (endian_eqb_neq _ _ He).
  destruct T; try discriminate Hu; cbn [sizeof] in Hwide;
    destruct Hsize as [-> | [-> | ->]]; try lia; cbn [Z.eqb Pos.eqb]; f_equal.
  - exact (swap_wider_than_type U8 1 1 value Hu eq_refl ltac:(lia) Hv).
  - exact (swap_wider_than_type U8 1 3 value Hu eq_refl ltac:(lia) Hv).
  - exact (swap_wider_than_type U8 1 7 value Hu eq_refl ltac:(lia) Hv).
  - exact (swap_wider_than_type U16 2 2 value Hu eq_refl ltac:(lia) Hv).
  - exact (swap_wider_than_type U16 2 6 value Hu eq_refl ltac:(lia) Hv).
  - exact (swap_wider_than_type U32 4 4 value Hu eq_refl ltac:(lia) Hv).
Qed.

Lemma changeEndianess_sized_wide_count_witness :
  changeEndianess_sized little U16 0x1234 4 big = Ok 0.
Proof.
  apply (changeEndianess_sized_wide_count little U16 0x1234 4 big).
  - reflexivity.
  - right; left; reflexivity.
  - reflexivity.
  - unfold in_range; cbn; lia.
  - discriminate.
Defined.

(** The typed overload looks at the requested order only to compare it with
    the native one. *)
Lemma changeEndianess_non_native
  (native : endian) (T : IntType) (value : Z) (e1 e2 : endian) :
  e1 <> native -> e2 <> native ->
  changeEndianess native T value e1 = changeEndianess native T value e2.
Proof.
  intros H1 H2. unfold changeEndianess.
  now rewrite (endian_eqb_neq _ _ H1), (endian_eqb_neq _ _ H2).
Qed.

(** X15. On a platform whose native byte order is [little] or [big],
    converting through both byte orders swaps exactly once, in either
    sequence: [changeEndianess] with [little] and then with [big], and with
    [big] and then with [little], both give [changeEndianess] with an order
    that is not the native one. *)
Theorem changeEndianess_both_orders
  (native : endian) (T : IntType) (value : Z) (e : endian) :
  native = little \/ native = big ->
  e <> native ->
  changeEndianess native T (changeEndianess native T value little) big
  = changeEndianess native T value e
  /\ changeEndianess native T (changeEndianess native T value big) little
     = changeEndianess native T value e.
Proof.
  intros Hnative He.
  assert (Hnat : forall v, changeEndianess native T v native = v).
  { intros v. unfold changeEndianess. now rewrite endian_eqb_refl. }
  destruct Hnative as [-> | ->]; rewrite !Hnat;
    split; apply changeEndianess_non_native; (exact He || discriminate).
Qed.

Lemma changeEndianess_both_orders_witness :
  changeEndianess little U16 (changeEndianess little U16 0x1234 little) big
  = changeEndianess little U16 0x1234 big
  /\ changeEndianess little U16 (changeEndianess little U16 0x1234 big) little
     = changeEndianess little U16 0x1234 big.
Proof.
  apply (changeEndianess_both_orders little U16 0x1234 big).
  - left; reflexivity.
  - discriminate.
Defined.

(** X16. What the swap does to the bytes: for a value of [T], an order other
    than the native one and [0 <= i < sizeof(T)], byte [i] of the result is
    byte [sizeof(T) - 1 - i] of the value. *)
Theorem changeEndianess_reverses_bytes
  (native : endian) (T : IntType) (value : Z) (e : endian) (i : Z) :
  e <> native ->
  in_range T value ->
  0 <= i < sizeof T ->
  (changeEndianess native T value e / 256 ^ i) mod 256
  = (value / 256 ^ (sizeof T - 1 - i)) mod 256.
Proof.
  intros He Hv Hi.
  rewrite changeEndianess_swaps by assumption.
  assert (Hs : 0 <= sizeof T) by (destruct T; cbn; lia).
  rewrite <- (Z2Nat.id i) by lia.
  rewrite bswap_byte by lia.
  do 3 f_equal. lia.
Qed.

Lemma changeEndianess_reverses_bytes_witness :
  (changeEndianess little U32 0x12345678 big / 256 ^ 0) mod 256
  = (0x12345678 / 256 ^ (sizeof U32 - 1 - 0)) mod 256.
Proof.
  apply (changeEndianess_reverses_bytes little U32 0x12345678 big 0).
  - discriminate.
  - unfold in_range; cbn; lia.
  - cbn; lia.
Defined.

(** X17. The statically typed overload loses no information: for every
    requested order, two values of [T] with the same result are the same
    value. *)
Theorem changeEndianess_injective
  (native : endian) (T : IntType) (v1 v2 : Z) (e : endian) :
  in_range T v1 ->
  in_range T v2 ->
  changeEndianess native T v1 e = changeEndianess native T v2 e ->
  v1 = v2.
Proof.
  intros H1 H2 Heq.
  destruct (endian_eqb e native) eqn:E.
  - unfold changeEndianess in Heq. now rewrite E in Heq.
  - assert (He : e <> native).
    { intros ->. now rewrite endian_eqb_refl in E. }
    rewrite !changeEndianess_swaps in Heq by assumption.
    unfold in_range in H1, H2. rewrite <- byte_count_pow in H1, H2.
    exact (bswap_injective _ _ _ H1 H2 Heq).
Qed.

Lemma changeEndianess_injective_witness : 0x1234 = 0x1234.
Proof.
  apply (changeEndianess_injective little U16 0x1234 0x1234 big).
  - unfold in_range; cbn; lia.
  - unfold in_range; cbn; lia.
  - reflexivity.
Defined.

(** ** Bit width and power-of-two ceiling *)

Lemma countl_zero_spec (n : nat) (x : Z) :
  0 <= x < 2 ^ Z.of_nat n ->
  0 <= countl_zero n x <= Z.of_nat n
  /\ (x = 0 -> countl_zero n x = Z.of_nat n)
  /\ (0 < x ->
      2 ^ (Z.of_nat n - countl_zero n x - 1) <= x
      /\ x < 2 ^ (Z.of_nat n - countl_zero n x)).
Proof.
  induction n as [| k IH]; intros Hx.
  - cbn [countl_zero]. rewrite Z.pow_0_r in Hx. lia.
  - cbn [countl_zero].
    rewrite Nat2Z.inj_succ in *.
    rewrite (testbit_top (Z.of_nat k) x)
      by (replace (Z.of_nat k + 1) with (Z.succ (Z.of_nat k)) by lia; lia).
    assert (Hp : 0 < 2 ^ Z.of_nat k) by (apply pow2_pos; lia).
    destruct (Z.ltb_spec x (2 ^ Z.of_nat k)) as [Hlt | Hge]; cbn [negb].
    + destruct IH as (Hc & Hz & Hb); [lia |].
      split; [lia |]. split.
      * intros H0. specialize (Hz H0). lia.
      * intros H0. specialize (Hb H0).
        replace (Z.succ (Z.of_nat k) - (1 + countl_zero k x) - 1)
          with (Z.of_nat k - countl_zero k x - 1) by lia.
        replace (Z.succ (Z.of_nat k) - (1 + countl_zero k x))
          with (Z.of_nat k - countl_zero k x) by lia.
        exact Hb.
    + split; [lia |]. split; [lia |].
      intros _.
      replace (Z.succ (Z.of_nat k) - 0 - 1) with (Z.of_nat k) by lia.
      replace (Z.succ (Z.of_nat k) - 0) with (Z.succ (Z.of_nat k)) by lia.
      lia.
Qed.

Lemma bits_bounds (T : IntType) : 8 <= bits T <= 64.
Proof. destruct T; cbn; lia. Qed.

Lemma bits_le_promoted (T : IntType) : bits T <= promoted_bits T.
Proof. destruct T; cbn; lia. Qed.

(** [bit_width] on an unsigned type, without the conversions. *)
Lemma bit_width_spec (T : IntType) (x : Z) :
  is_signed_type T = false ->
  in_range T x ->
  0 <= bit_width T x <= bits T
  /\ (x = 0 -> bit_width T x = 0)
  /\ (0 < x -> 2 ^ (bit_width T x - 1) <= x < 2 ^ bit_width T x).
Proof.
  intros Hu Hx. unfold in_range in Hx.
  pose proof (bits_bounds T) as Hb.
  destruct (countl_zero_spec (Z.to_nat (bits T)) x) as (Hc & Hz & Hpos).
  { rewrite Z2Nat.id by lia. exact Hx. }
  rewrite Z2Nat.id in * by lia.
  assert (Hw : bit_width T x = bits T - countl_zero (Z.to_nat (bits T)) x).
  { unfold bit_width, digits, of_unsigned. rewrite Hu.
    apply Z.mod_small. split; [lia |].
    apply Z.le_lt_trans with 64; [lia |].
    apply Z.lt_le_trans with (2 ^ 8); [reflexivity |].
    apply pow2_mono. lia. }
  rewrite Hw. split; [lia |]. split.
  - intros H0. specialize (Hz H0). lia.
  - intros H0. specialize (Hpos H0). lia.
Qed.

(** [bit_ceil] on an unsigned type, below the overflow. *)
Lemma bit_ceil_spec (T : IntType) (x : Z) :
  is_signed_type T = false ->
  0 <= x <= 2 ^ (bits T - 1) ->
  exists k,
    0 <= k < bits T
    /\ bit_ceil T x = Some (2 ^ k)
    /\ x <= 2 ^ k
    /\ (forall j, 0 <= j -> x <= 2 ^ j -> k <= j).
Proof.
  intros Hu Hx.
  pose proof (bits_bounds T) as Hb.
  pose proof (bits_le_promoted T) as Hpr.
  assert (Hhalf : 2 ^ bits T = 2 * 2 ^ (bits T - 1)) by (apply pow2_double; lia).
  assert (Hph : 0 < 2 ^ (bits T - 1)) by (apply pow2_pos; lia).
  unfold bit_ceil.
  destruct (Z.leb_spec x 1) as [Hle | Hgt].
  - exists 0. rewrite Z.pow_0_r.
    split; [lia |]. split; [| split; [lia | intros; lia]].
    unfold of_unsigned. now rewrite Z.mod_small by lia.
  - assert (Hr : in_range T (x - 1)) by (unfold in_range; lia).
    unfold of_unsigned at 1.
    rewrite (Z.mod_small (x - 1)) by exact Hr.
    destruct (bit_width_spec T (x - 1) Hu Hr) as (Hw & _ & Hbnd).
    specialize (Hbnd ltac:(lia)).
    set (w := bit_width T (x - 1)) in *.
    assert (Hw1 : 1 <= w).
    { destruct (Z.le_gt_cases w 0) as [H0 | H0]; [| lia].
      assert (2 ^ w <= 2 ^ 0) by (apply pow2_mono; lia).
      rewrite Z.pow_0_r in *. lia. }
    assert (Hwlt : w < bits T).
    { destruct (Z.le_gt_cases (bits T) w) as [H0 | H0]; [| lia].
      assert (2 ^ (bits T - 1) <= 2 ^ (w - 1)) by (apply pow2_mono; lia).
      lia. }
    exists w. split; [lia |]. split; [| split; [lia |]].
    + unfold shl_T.
      replace (0 <=? w) with true by (symmetry; apply Z.leb_le; lia).
      replace (w <? promoted_bits T) with true
        by (symmetry; apply Z.ltb_lt; lia).
      cbn [andb]. f_equal. unfold of_unsigned.
      rewrite Z.shiftl_mul_pow2, Z.mul_1_l by lia.
      apply Z.mod_small. split; [apply Z.lt_le_incl, pow2_pos; lia |].
      apply Z.pow_lt_mono_r; lia.
    + intros j Hj Hxj.
      destruct (Z.le_gt_cases w j) as [H0 | H0]; [exact H0 |].
      assert (2 ^ j <= 2 ^ (w - 1)) by (apply pow2_mono; lia).
      lia.
Qed.

(** X18. [bit_width] of an unsigned value is the number of bits needed to
    write it: 0 for the value 0 and, for [x > 0], the [w] with
    [2^(w-1) <= x < 2^w], that is [floor(log2 x) + 1]; it never exceeds the
    width of the type. *)
Theorem bit_width_is_bit_length (T : IntType) (x : Z) :
  is_signed_type T = false ->
  in_range T x ->
  0 <= bit_width T x <= bits T
  /\ (x = 0 -> bit_width T x = 0)
  /\ (0 < x ->
      2 ^ (bit_width T x - 1) <= x < 2 ^ bit_width T x
      /\ bit_width T x = Z.log2 x + 1).
Proof.
  intros Hu Hx.
  destruct (bit_width_spec T x Hu Hx) as (Hw & Hz & Hpos).
  split; [exact Hw |]. split; [exact Hz |].
  intros H0. specialize (Hpos H0). split; [exact Hpos |].
  assert (Hw1 : 1 <= bit_width T x).
  { destruct (Z.le_gt_cases (bit_width T x) 0) as [Hle | Hgt]; [| lia].
    assert (2 ^ bit_width T x <= 2 ^ 0) by (apply pow2_mono; lia).
    rewrite Z.pow_0_r in *. lia. }
  assert (Hlog : Z.log2 x = bit_width T x - 1).
  { apply Z.log2_unique; [lia |].
    replace (Z.succ (bit_width T x - 1)) with (bit_width T x) by lia.
    exact Hpos. }
  lia.
Qed.

Lemma bit_width_is_bit_length_witness :
  0 <= bit_width U16 0x1234 <= bits U16
  /\ (0x1234 = 0 -> bit_width U16 0x1234 = 0)
  /\ (0 < 0x1234 ->
      2 ^ (bit_width U16 0x1234 - 1) <= 0x1234 < 2 ^ bit_width U16 0x1234
      /\ bit_width U16 0x1234 = Z.log2 0x1234 + 1).
Proof.
  apply (bit_width_is_bit_length U16 0x1234).
  - reflexivity.
  - unfold in_range; cbn; lia.
Defined.

(** X19. Up to half the range of an unsigned type, [bit_ceil] is the least
    power of two that is not below its operand: for
    [0 <= x <= 2^(bits - 1)] the result is a power [2^k] of two that fits the
    type, with [x <= 2^k], and every power of two that is at least [x] is at
    least [2^k]; in particular 0 and 1 are mapped to 1. *)
Theorem bit_ceil_least_power (T : IntType) (x : Z) :
  is_signed_type T = false ->
  0 <= x <= 2 ^ (bits T - 1) ->
  exists k,
    0 <= k < bits T
    /\ bit_ceil T x = Some (2 ^ k)
    /\ x <= 2 ^ k
    /\ (forall j, 0 <= j -> x <= 2 ^ j -> k <= j).
Proof.
  intros Hu Hx. now apply bit_ceil_spec.
Qed.

Lemma bit_ceil_least_power_witness :
  exists k,
    0 <= k < bits U8
    /\ bit_ceil U8 100 = Some (2 ^ k)
    /\ 100 <= 2 ^ k
    /\ (forall j, 0 <= j -> 100 <= 2 ^ j -> k <= j).
Proof.
  apply (bit_ceil_least_power U8 100).
  - reflexivity.
  - cbn; lia.
Defined.

(** X20. Above half the range of the type no power of two fits, and
    [bit_ceil] shifts by the full width of the type: for an unsigned [T] and
    [2^(bits - 1) < x], the types of 1 and 2 bytes, which are shifted as
    [int], give 0, and for those of 4 and 8 bytes the shift is undefined. *)
Theorem bit_ceil_overflow (T : IntType) (x : Z) :
  is_signed_type T = false ->
  in_range T x ->
  2 ^ (bits T - 1) < x ->
  bit_ceil T x = if sizeof T <=? 2 then Some 0 else None.
Proof.
  intros Hu Hx Hbig.
  pose proof (bits_bounds T) as Hb.
  assert (Hph : 0 < 2 ^ (bits T - 1)) by (apply pow2_pos; lia).
  unfold in_range in Hx.
  assert (Hr : in_range T (x - 1)) by (unfold in_range; lia).
  unfold bit_ceil.
  replace (x <=? 1) with false by (symmetry; apply Z.leb_gt; lia).
  unfold of_unsigned at 1.
  rewrite (Z.mod_small (x - 1)) by exact Hr.
  destruct (bit_width_spec T (x - 1) Hu Hr) as (Hw & _ & Hbnd).
  specialize (Hbnd ltac:(lia)).
  assert (Hfull : bit_width T (x - 1) = bits T).
  { destruct (Z.le_gt_cases (bits T) (bit_width T (x - 1))) as [H0 | H0];
      [lia |].
    assert (2 ^ bit_width T (x - 1) <= 2 ^ (bits T - 1))
      by (apply pow2_mono; lia).
    lia. }
  rewrite Hfull.
  destruct T; try discriminate Hu; reflexivity.
Qed.

Lemma bit_ceil_overflow_witness :
  bit_ceil U8 200 = (if sizeof U8 <=? 2 then Some 0 else None)
  /\ bit_ceil U32 0x80000001 = (if sizeof U32 <=? 2 then Some 0 else None).
Proof.
  split.
  - apply (bit_ceil_overflow U8 200);
      [reflexivity | unfold in_range; cbn; lia | cbn; lia].
  - apply (bit_ceil_overflow U32 0x80000001);
      [reflexivity | unfold in_range; cbn; lia | cbn; lia].
Defined.

(** X21. [bit_ceil] is idempotent below the overflow: for an unsigned [T]
    and [0 <= x <= 2^(bits - 1)], applying [bit_ceil] to its own result gives
    that result again. *)
Theorem bit_ceil_idempotent (T : IntType) (x : Z) :
  is_signed_type T = false ->
  0 <= x <= 2 ^ (bits T - 1) ->
  (p <- bit_ceil T x ;; bit_ceil T p) = bit_ceil T x.
Proof.
  intros Hu Hx.
  pose proof (bits_bounds T) as Hb.
  destruct (bit_ceil_spec T x Hu Hx) as (k & Hk & Hres & Hge & Hmin).
  rewrite Hres. cbn [bind].
  assert (Hpk : 0 <= 2 ^ k <= 2 ^ (bits T - 1)).
  { split; [apply Z.lt_le_incl, pow2_pos; lia | apply pow2_mono; lia]. }
  destruct (bit_ceil_spec T (2 ^ k) Hu Hpk) as (k' & Hk' & Hres' & Hge' & Hmin').
  rewrite Hres'. do 2 f_equal.
  assert (k' <= k) by (apply Hmin'; lia).
  assert (k <= k'); [| lia].
  apply (Z.pow_le_mono_r_iff 2); lia.
Qed.

Lemma bit_ceil_idempotent_witness :
  (p <- bit_ceil U16 1000 ;; bit_ceil U16 p) = bit_ceil U16 1000.
Proof.
  apply (bit_ceil_idempotent U16 1000).
  - reflexivity.
  - cbn; lia.
Defined.
